(** * Volume ray-caster: sampling, ray/box intersection, transfer functions,
      compositing and pixel scheduling.

    A shallow embedding of [src/volume/volume.cpp] and
    [src/render/renderer.cpp], followed by the properties proved of it.

    Numbers.  The C++ type [float] is embedded as the type [float] below: the
    IEEE-754 special values (both infinities and NaN) together with the exact
    rationals for the finite values.  Finite arithmetic is exact: rounding,
    overflow, underflow and the sign of zero are not modelled (a zero
    divisor behaves as [+0]).  The special values follow IEEE-754, because
    the slab test of the renderer divides by direction components that may
    be zero.  The C++ type [int] is a 32-bit two's complement integer,
    [size_t] a 64-bit unsigned one. *)

From Stdlib Require Import ZArith NArith QArith Qround Qabs List Bool Lia Lra Lqa Psatz.
From Stdlib Require Import Permutation FinFun Morphisms Setoid RelationClasses.
Import ListNotations.

(* ================================================================== *)
(** * Part I: the embedding *)

(** ** Machine integers *)

Module MachineInt.

Local Open Scope Z_scope.

(** Two's complement wrap-around of a 32-bit [int]. *)
Definition wrap32 (z : Z) : Z := (z + 2 ^ 31) mod 2 ^ 32 - 2 ^ 31.

Definition INT_MIN : Z := - 2 ^ 31.
Definition INT_MAX : Z := 2 ^ 31 - 1.

Definition int_add (a b : Z) : Z := wrap32 (a + b).
Definition int_sub (a b : Z) : Z := wrap32 (a - b).
Definition int_mul (a b : Z) : Z := wrap32 (a * b).

(** Conversion of a (signed) integer to the 64-bit [size_t]. *)
Definition to_size_t (z : Z) : Z := z mod 2 ^ 64.

Definition in_int (z : Z) : Prop := INT_MIN <= z <= INT_MAX.

End MachineInt.
Import MachineInt.

(** ** Floating-point numbers: IEEE special values over exact rationals *)

Inductive float : Type :=
| Fin (q : Q)
| PInf
| NInf
| NaN.

Declare Scope float_scope.
Delimit Scope float_scope with fl.
Bind Scope float_scope with float.

Module FloatOps.

Definition Qltb (p q : Q) : bool := negb (Qle_bool q p).

Definition fneg (a : float) : float :=
  match a with
  | Fin q => Fin (- q)
  | PInf => NInf
  | NInf => PInf
  | NaN => NaN
  end.

Definition fadd (a b : float) : float :=
  match a, b with
  | NaN, _ | _, NaN => NaN
  | Fin p, Fin q => Fin (p + q)
  | PInf, NInf | NInf, PInf => NaN
  | PInf, _ | _, PInf => PInf
  | NInf, _ | _, NInf => NInf
  end.

Definition fsub (a b : float) : float := fadd a (fneg b).

(** Infinity times a finite value: the sign of the result, NaN at zero. *)
Definition inf_times (positive : bool) (q : Q) : float :=
  match q ?= 0 with
  | Eq => NaN
  | Gt => if positive then PInf else NInf
  | Lt => if positive then NInf else PInf
  end.

Definition fmul (a b : float) : float :=
  match a, b with
  | NaN, _ | _, NaN => NaN
  | Fin p, Fin q => Fin (p * q)
  | Fin p, PInf | PInf, Fin p => inf_times true p
  | Fin p, NInf | NInf, Fin p => inf_times false p
  | PInf, PInf | NInf, NInf => PInf
  | PInf, NInf | NInf, PInf => NInf
  end.

(** Division.  A zero divisor counts as [+0]: [p / 0] is an infinity of
    the sign of [p], and [0 / 0] is NaN. *)
Definition fdiv (a b : float) : float :=
  match a, b with
  | NaN, _ | _, NaN => NaN
  | Fin p, Fin q =>
      if Qeq_bool q 0 then
        match p ?= 0 with Eq => NaN | Gt => PInf | Lt => NInf end
      else Fin (p / q)
  | Fin _, PInf | Fin _, NInf => Fin 0
  | PInf, Fin q => if Qle_bool 0 q then PInf else NInf
  | NInf, Fin q => if Qle_bool 0 q then NInf else PInf
  | PInf, PInf | PInf, NInf | NInf, PInf | NInf, NInf => NaN
  end.

(** Comparison; [None] when an operand is NaN (unordered). *)
Definition fcompare (a b : float) : option comparison :=
  match a, b with
  | NaN, _ | _, NaN => None
  | Fin p, Fin q => Some (p ?= q)
  | PInf, PInf | NInf, NInf => Some Eq
  | NInf, _ | _, PInf => Some Lt
  | PInf, _ | _, NInf => Some Gt
  end.

Definition fltb (a b : float) : bool :=
  match fcompare a b with Some Lt => true | _ => false end.
Definition fleb (a b : float) : bool :=
  match fcompare a b with Some Lt | Some Eq => true | _ => false end.
Definition feqb (a b : float) : bool :=
  match fcompare a b with Some Eq => true | _ => false end.
Definition fgtb (a b : float) : bool := fltb b a.
Definition fgeb (a b : float) : bool := fleb b a.

(** [abs] on a float. *)
Definition fabs (a : float) : float :=
  match a with
  | Fin q => Fin (Qabs q)
  | PInf | NInf => PInf
  | NaN => NaN
  end.

(** [std::max(a, b)] is [(a < b) ? b : a]; [std::min(a, b)] is
    [(b < a) ? b : a]. *)
Definition fmax (a b : float) : float := if fltb a b then b else a.
Definition fmin (a b : float) : float := if fltb b a then b else a.

(** [pow(x, n)] for a literal natural exponent. *)
Fixpoint fpow (x : float) (n : nat) : float :=
  match n with
  | O => Fin 1
  | S k => fmul x (fpow x k)
  end.

(** Conversion of an integer to [float]. *)
Definition of_int (z : Z) : float := Fin (inject_Z z).

(** Truncation of a rational toward zero. *)
Definition Qtrunc (q : Q) : Z :=
  if Qle_bool 0 q then Qfloor q else Qceiling q.

(** [static_cast<int>(f)]: truncation toward zero.  Outside the range of
    [int], and at an infinity or NaN, the conversion is undefined in C++;
    the value of the x86 conversion instruction ([INT_MIN]) is taken there,
    so that the samplers stay total as their signatures say. *)
Definition to_int (a : float) : Z :=
  match a with
  | Fin q =>
      let z := Qtrunc q in
      if ((INT_MIN <=? z) && (z <=? INT_MAX))%Z then z else INT_MIN
  | _ => INT_MIN
  end.

(** [static_cast<size_t>(f)]: truncation toward zero; [None] where C++
    leaves the conversion undefined (the truncated value is not a
    [size_t]). *)
Definition float_to_size_t (a : float) : option Z :=
  match a with
  | Fin q =>
      let z := Qtrunc q in
      if ((0 <=? z) && (z <? 2 ^ 64))%Z then Some z else None
  | _ => None
  end.

Definition finite (a : float) : Prop :=
  match a with Fin _ => True | _ => False end.

(** Equality of floats as numbers (the rationals are not normalised). *)
Definition feq (a b : float) : Prop :=
  match a, b with
  | Fin p, Fin q => p == q
  | PInf, PInf | NInf, NInf | NaN, NaN => True
  | _, _ => False
  end.

End FloatOps.
Export FloatOps.

Notation "a + b" := (fadd a b) : float_scope.
Notation "a - b" := (fsub a b) : float_scope.
Notation "a * b" := (fmul a b) : float_scope.
Notation "a / b" := (fdiv a b) : float_scope.
Notation "- a" := (fneg a) : float_scope.
Notation "a <? b" := (fltb a b) : float_scope.
Notation "a <=? b" := (fleb a b) : float_scope.
Notation "a >? b" := (fgtb a b) (at level 70) : float_scope.
Notation "a >=? b" := (fgeb a b) (at level 70) : float_scope.
Notation "a =? b" := (feqb a b) : float_scope.
Infix "=f=" := feq (at level 70, no associativity).

(** ** Vectors (glm) *)

Record ivec2 : Type := mkivec2 { i2x : Z; i2y : Z }.
Record ivec3 : Type := mkivec3 { ix : Z; iy : Z; iz : Z }.
Record vec2 : Type := mkvec2 { v2x : float; v2y : float }.
Record vec3 : Type := mkvec3 { vx : float; vy : float; vz : float }.
Record vec4 : Type := mkvec4 { cr : float; cg : float; cb : float; cw : float }.

Module Glm.

Local Open Scope float_scope.

Definition vadd (a b : vec3) : vec3 :=
  mkvec3 (vx a + vx b) (vy a + vy b) (vz a + vz b).
Definition vsub (a b : vec3) : vec3 :=
  mkvec3 (vx a - vx b) (vy a - vy b) (vz a - vz b).
Definition vneg (a : vec3) : vec3 := mkvec3 (- vx a) (- vy a) (- vz a).

(** scalar * vector *)
Definition vscale (s : float) (a : vec3) : vec3 :=
  mkvec3 (s * vx a) (s * vy a) (s * vz a).

(** vector / scalar *)
Definition vdivs (a : vec3) (s : float) : vec3 :=
  mkvec3 (vx a / s) (vy a / s) (vz a / s).

(** vector + scalar: the scalar is added to every component *)
Definition vadds (a : vec3) (s : float) : vec3 :=
  mkvec3 (vx a + s) (vy a + s) (vz a + s).

Definition dot (a b : vec3) : float :=
  vx a * vx b + vy a * vy b + vz a * vz b.

Definition vec3_of_ivec3 (d : ivec3) : vec3 :=
  mkvec3 (of_int (ix d)) (of_int (iy d)) (of_int (iz d)).

(** [glm::vec3(s)]: all components equal to [s]. *)
Definition vec3_all (s : float) : vec3 := mkvec3 s s s.

(** [glm::any(glm::lessThan(a, b))] and
    [glm::any(glm::greaterThanEqual(a, b))] *)
Definition any_lessThan (a b : vec3) : bool :=
  (vx a <? vx b) || (vy a <? vy b) || (vz a <? vz b).
Definition any_greaterThanEqual (a b : vec3) : bool :=
  (vx a >=? vx b) || (vy a >=? vy b) || (vz a >=? vz b).

(** [glm::vec4(v, w)] and [glm::vec3(c)] *)
Definition vec4_of (v : vec3) (w : float) : vec4 :=
  mkvec4 (vx v) (vy v) (vz v) w.
Definition vec3_of_vec4 (c : vec4) : vec3 := mkvec3 (cr c) (cg c) (cb c).

Definition finite3 (a : vec3) : Prop :=
  finite (vx a) /\ finite (vy a) /\ finite (vz a).
Definition veq (a b : vec3) : Prop :=
  vx a =f= vx b /\ vy a =f= vy b /\ vz a =f= vz b.
Definition veq4 (a b : vec4) : Prop :=
  cr a =f= cr b /\ cg a =f= cg b /\ cb a =f= cb b /\ cw a =f= cw b.

End Glm.
Export Glm.

(** ** Results of code that loops or reads a table *)

(** [Ret x]: the code returns [x].  [OutOfFuel]: the loop was still running
    when the fuel of the model ran out.  [Undefined]: the code performs an
    operation that C++ leaves undefined (an out-of-range table read, a
    float to [size_t] conversion of a value that is no [size_t]). *)
Inductive outcome (A : Type) : Type :=
| Ret (x : A)
| OutOfFuel
| Undefined.

Arguments Ret {A} x.
Arguments OutOfFuel {A}.
Arguments Undefined {A}.

(** ** volume.cpp *)

Inductive InterpolationMode : Type := NearestNeighbour | Linear | Cubic.

(** The class [volume::Volume]: the dimensions, the dense array of 16-bit
    scalars (x fastest, then y, then z) and the public member
    [interpolationMode]. *)
Record Volume : Type := mkVolume {
  m_dim : ivec3;
  m_data : list N;
  interpolationMode : InterpolationMode
}.

Module volume.
Section VolumeSampler.

Local Open Scope float_scope.

(** The class constant [Volume::a], the sharpness of the cubic kernel; its
    declaration is in [volume.h]. *)
Variable a : float.

Variable this : Volume.

Definition of_u16 (n : N) : float := of_int (Z.of_N n).

(** [computeMaximum]: the largest element of the data. *)
Definition computeMaximum (data : list N) : float :=
  of_u16 (fold_right N.max 0%N data).

Definition maximum : float := computeMaximum (m_data this).

(** [Volume::getVoxel].  The index is computed in [int] and converted to
    [size_t]; the test [i < 0] of the source is kept, although it is never
    true of a [size_t]. *)
Definition getVoxel (x y z : Z) : float :=
  let d := m_dim this in
  let i := to_size_t (int_add x (int_mul (ix d) (int_add y (int_mul (iy d) z)))) in
  if ((Z.of_nat (length (m_data this)) <=? i) || (i <? 0))%Z then Fin 0
  else of_u16 (nth (Z.to_nat i) (m_data this) 0%N).

(** The lambda [roundToPositiveInt] of [getVoxelNN]. *)
Definition roundToPositiveInt (f : float) : Z := to_int (f + Fin 0.5).

Definition getVoxelNN (coord : vec3) : float :=
  if any_lessThan (vadds coord (Fin 0.5)) (vec3_all (Fin 0))
     || any_greaterThanEqual (vadds coord (Fin 0.5)) (vec3_of_ivec3 (m_dim this))
  then Fin 0
  else getVoxel (roundToPositiveInt (vx coord)) (roundToPositiveInt (vy coord))
                (roundToPositiveInt (vz coord)).

Definition linearInterpolate (g0 g1 factor : float) : float :=
  (Fin 1 - factor) * g0 + factor * g1.

(** [m_dim - 1] as a [glm::vec3] *)
Definition dim_minus_1 : vec3 :=
  let d := m_dim this in
  vec3_of_ivec3 (mkivec3 (int_sub (ix d) 1) (int_sub (iy d) 1) (int_sub (iz d) 1)).

Definition getVoxelLinearInterpolate (coord : vec3) : float :=
  if any_lessThan coord (vec3_all (Fin 0)) || any_greaterThanEqual coord dim_minus_1
  then Fin 0
  else
    let x := to_int (vx coord) in
    let y := to_int (vy coord) in
    let z := to_int (vz coord) in
    let fac_x := vx coord - of_int x in
    let fac_y := vy coord - of_int y in
    let fac_z := vz coord - of_int z in
    let t0 := linearInterpolate (getVoxel x y z) (getVoxel (int_add x 1) y z) fac_x in
    let t1 := linearInterpolate (getVoxel x (int_add y 1) z)
                                (getVoxel (int_add x 1) (int_add y 1) z) fac_x in
    let t2 := linearInterpolate (getVoxel x y (int_add z 1))
                                (getVoxel (int_add x 1) y (int_add z 1)) fac_x in
    let t3 := linearInterpolate (getVoxel x (int_add y 1) (int_add z 1))
                                (getVoxel (int_add x 1) (int_add y 1) (int_add z 1)) fac_x in
    let t4 := linearInterpolate t0 t1 fac_y in
    let t5 := linearInterpolate t2 t3 fac_y in
    let t6 := linearInterpolate t4 t5 fac_z in
    t6.

(** [Volume::weight], the kernel [h(x)] of the cubic convolution *)
Definition weight (x : float) : float :=
  let x := fabs x in
  if x <? Fin 1 then
    (a + Fin 2) * fpow x 3 - (a + Fin 3) * fpow x 2 + Fin 1
  else if x <? Fin 2 then
    a * fpow x 3 - Fin 5 * a * fpow x 2 + Fin 8 * a * x - Fin 4 * a
  else Fin 0.

Definition cubicInterpolate (g0 g1 g2 g3 factor : float) : float :=
  weight (Fin 1 + factor) * g0 + weight factor * g1
  + weight (Fin 1 - factor) * g2 + weight (Fin 2 - factor) * g3.

(** One pass of the loop of [bicubicInterpolateXY]: the value stored in
    [values[i + offset]]. *)
Definition bicubic_row (xyCoord : vec2) (z : Z) (y : Z) (fac_y : float) (i : Z) : float :=
  let offset := 1%Z in
  let x := to_int (v2x xyCoord + of_int i) in
  cubicInterpolate
    (getVoxel x (int_sub y offset) z)
    (getVoxel x (int_add (int_sub y offset) 1) z)
    (getVoxel x (int_add (int_sub y offset) 2) z)
    (getVoxel x (int_add (int_sub y offset) 3) z)
    fac_y.

Definition bicubicInterpolateXY (xyCoord : vec2) (z : Z) : float :=
  let x := to_int (v2x xyCoord) in
  let y := to_int (v2y xyCoord) in
  let fac_x := v2x xyCoord - of_int x in
  let fac_y := v2y xyCoord - of_int y in
  let values := fun i => bicubic_row xyCoord z y fac_y i in
  cubicInterpolate (values (-1)%Z) (values 0%Z) (values 1%Z) (values 2%Z) fac_x.

Definition getVoxelTriCubicInterpolate (coord : vec3) : float :=
  if any_lessThan coord (vec3_all (Fin 0)) || any_greaterThanEqual coord dim_minus_1
  then Fin 0
  else
    let z := to_int (vz coord) in
    let fac_z := vz coord - of_int z in
    let values := fun i =>
      bicubicInterpolateXY (mkvec2 (vx coord) (vy coord)) (to_int (vz coord + of_int i)) in
    let value :=
      cubicInterpolate (values (-1)%Z) (values 0%Z) (values 1%Z) (values 2%Z) fac_z in
    if value <? Fin 0 then Fin 0 else value.

(** [Volume::getVoxelInterpolate]: the three modes of the enumeration; the
    [default] branch of the source (an exception) has no mode left to
    reach it. *)
Definition getVoxelInterpolate (coord : vec3) : float :=
  match interpolationMode this with
  | NearestNeighbour => getVoxelNN coord
  | Linear => getVoxelLinearInterpolate coord
  | Cubic => getVoxelTriCubicInterpolate coord
  end.

End VolumeSampler.
End volume.

(** ** renderer.cpp *)

Record Ray : Type := mkRay {
  origin : vec3;
  direction : vec3;
  tmin : float;
  tmax : float
}.

(** [Bounds]: the array [lowerUpper] of two corners, the lower one first. *)
Record Bounds : Type := mkBounds { lower : vec3; upper : vec3 }.

Definition lowerUpper (b : Bounds) (i : bool) : vec3 :=
  if i then upper b else lower b.

Record GradientVoxel : Type := mkGradientVoxel { dir : vec3; magnitude : float }.

Inductive RenderMode : Type :=
| RenderSlicer | RenderMIP | RenderIso | RenderComposite | RenderTF2D | RenderTF2DV2.

(** The fields of [RenderConfig] that the renderer reads. *)
Record RenderConfig : Type := mkRenderConfig {
  renderResolution : ivec2;
  renderMode : RenderMode;
  isoValue : float;
  volumeShading : bool;
  tfColorMap : list vec4;
  tfColorMapIndexStart : float;
  tfColorMapIndexRange : float;
  TF2DIntensity : float;
  TF2DRadius : float;
  TF2DColor : vec4;
  TF2DV2Intensity_0 : float;
  TF2DV2Radius_0 : float;
  TF2DV2Color_0 : vec4;
  TF2DV2Intensity_1 : float;
  TF2DV2Radius_1 : float;
  TF2DV2Color_1 : vec4
}.

(** The gradient volume and the camera are collaborators whose code is not
    part of these two files; the renderer only calls
    [getGradientVoxel], [position] and [generateRay] on them. *)
Record GradientVolume : Type := mkGradientVolume {
  getGradientVoxel : vec3 -> GradientVoxel
}.

Record RayTraceCamera : Type := mkRayTraceCamera {
  position : vec3;
  generateRay : vec2 -> Ray
}.

(** The functions of the C math library that the Phong term calls. *)
Record MathLib : Type := mkMathLib {
  libm_acos : float -> float;
  libm_cos : float -> float;
  libm_sqrt : float -> float
}.

(** The members of [render::Renderer]. *)
Record Renderer : Type := mkRenderer {
  m_pVolume : Volume;
  m_pGradientVolume : GradientVolume;
  m_pCamera : RayTraceCamera;
  m_config : RenderConfig;
  m_frameBuffer : list vec4
}.

Module render.

Local Open Scope float_scope.

(** *** Free functions *)

Definition inTriangle (leftIntensity midIntensity rightIntensity intensity magnitude : float)
  : bool :=
  if (intensity <=? leftIntensity) || (intensity >=? rightIntensity) || (magnitude <=? Fin 0)
  then false
  else if intensity =? midIntensity then true
  else if intensity <? midIntensity then
    magnitude >? Fin 255 * ((midIntensity - intensity) / (midIntensity - leftIntensity))
  else
    magnitude >? Fin 255 * ((intensity - midIntensity) / (rightIntensity - midIntensity)).

Definition linearOpacity (intensityCenter radius intensity magnitude : float) : float :=
  let horizontalWidth := radius * (magnitude / Fin 255) in
  Fin 1 - (fabs (intensityCenter - intensity) / horizontalWidth).

(** *** The ray/box intersection *)

(** [Renderer::instersectRayVolumeBounds]: the returned flag paired with the
    ray after the call ([ray] is passed by reference). *)
Definition instersectRayVolumeBounds (ray : Ray) (bounds : Bounds) : bool * Ray :=
  let invDir := mkvec3 (Fin 1 / vx (direction ray)) (Fin 1 / vy (direction ray))
                       (Fin 1 / vz (direction ray)) in
  let sign0 := vx invDir <? Fin 0 in
  let sign1 := vy invDir <? Fin 0 in
  let sign2 := vz invDir <? Fin 0 in
  let tmin0 := (vx (lowerUpper bounds sign0) - vx (origin ray)) * vx invDir in
  let tmax0 := (vx (lowerUpper bounds (negb sign0)) - vx (origin ray)) * vx invDir in
  let tymin := (vy (lowerUpper bounds sign1) - vy (origin ray)) * vy invDir in
  let tymax := (vy (lowerUpper bounds (negb sign1)) - vy (origin ray)) * vy invDir in
  if (tmin0 >? tymax) || (tymin >? tmax0) then (false, ray)
  else
    let tmin1 := fmax tmin0 tymin in
    let tmax1 := fmin tmax0 tymax in
    let tzmin := (vz (lowerUpper bounds sign2) - vz (origin ray)) * vz invDir in
    let tzmax := (vz (lowerUpper bounds (negb sign2)) - vz (origin ray)) * vz invDir in
    if (tmin1 >? tzmax) || (tzmin >? tmax1) then (false, ray)
    else (true, mkRay (origin ray) (direction ray) (fmax tmin1 tzmin) (fmin tmax1 tzmax)).

(** *** The Phong term *)

Section Phong.

Variable libm : MathLib.

(** [glm::length] *)
Definition length3 (v : vec3) : float := libm_sqrt libm (dot v v).

Definition computePhongShading (color : vec3) (gradient : GradientVoxel) (L V : vec3) : vec3 :=
  let ka := Fin 0.1 in
  let kd := Fin 0.7 in
  let ks := Fin 0.2 in
  let n := 100%nat in
  let eps := Fin 0.0001 in
  let theta :=
    libm_acos libm (dot (dir gradient) (vneg L) / (magnitude gradient * length3 L + eps)) in
  let phi :=
    libm_acos libm (dot (dir gradient) V / (magnitude gradient * length3 V + eps)) - theta in
  vscale (ka + kd * libm_cos libm theta + ks * fpow (libm_cos libm phi) n) color.

End Phong.

(** *** Member functions of the renderer *)

Section RendererMethods.

Variable a : float.
Variable libm : MathLib.
Variable this : Renderer.

(** [m_pVolume->getVoxelInterpolate] and [m_pVolume->maximum()] *)
Definition sample (p : vec3) : float := volume.getVoxelInterpolate a (m_pVolume this) p.
Definition volumeMaximum : float := volume.maximum (m_pVolume this).

(** [Renderer::getTFValue]: the entry of the table, or [None] where the
    index conversion or the table read is undefined. *)
Definition getTFValue (val : float) : option vec4 :=
  let cfg := m_config this in
  let size := Z.of_nat (length (tfColorMap cfg)) in
  let range01 := (val - tfColorMapIndexStart cfg) / tfColorMapIndexRange cfg in
  match float_to_size_t (range01 * of_int size) with
  | None => None
  | Some k =>
      let i := Z.min k (to_size_t (size - 1)) in
      nth_error (tfColorMap cfg) (Z.to_nat i)
  end.

Definition getTF2DOpacity (intensity gradientMagnitude : float) : float :=
  let cfg := m_config this in
  if inTriangle (TF2DIntensity cfg - TF2DRadius cfg) (TF2DIntensity cfg)
                (TF2DIntensity cfg + TF2DRadius cfg) intensity gradientMagnitude
  then linearOpacity (TF2DIntensity cfg) (TF2DRadius cfg) intensity gradientMagnitude
  else Fin 0.

Definition getTF2DV2Opacity (intensity gradientMagnitude : float) : float :=
  let cfg := m_config this in
  let inTriangle_0 :=
    inTriangle (TF2DV2Intensity_0 cfg - TF2DV2Radius_0 cfg) (TF2DV2Intensity_0 cfg)
               (TF2DV2Intensity_0 cfg + TF2DV2Radius_0 cfg) intensity gradientMagnitude in
  let inTriangle_1 :=
    inTriangle (TF2DV2Intensity_1 cfg - TF2DV2Radius_1 cfg) (TF2DV2Intensity_1 cfg)
               (TF2DV2Intensity_1 cfg + TF2DV2Radius_1 cfg) intensity gradientMagnitude in
  if inTriangle_0 then
    linearOpacity (TF2DV2Intensity_0 cfg) (TF2DV2Radius_0 cfg) intensity gradientMagnitude
  else if inTriangle_1 then
    linearOpacity (TF2DV2Intensity_1 cfg) (TF2DV2Radius_1 cfg) intensity gradientMagnitude
  else if inTriangle_0 && inTriangle_1 then
    fmax
      (linearOpacity (TF2DV2Intensity_0 cfg) (TF2DV2Radius_0 cfg) intensity gradientMagnitude)
      (linearOpacity (TF2DV2Intensity_1 cfg) (TF2DV2Radius_1 cfg) intensity gradientMagnitude)
  else Fin 0.

Definition getTF2DV2Color (intensity gradientMagnitude : float) : vec4 :=
  let cfg := m_config this in
  let inTriangle_0 :=
    inTriangle (TF2DV2Intensity_0 cfg - TF2DV2Radius_0 cfg) (TF2DV2Intensity_0 cfg)
               (TF2DV2Intensity_0 cfg + TF2DV2Radius_0 cfg) intensity gradientMagnitude in
  let inTriangle_1 :=
    inTriangle (TF2DV2Intensity_1 cfg - TF2DV2Radius_1 cfg) (TF2DV2Intensity_1 cfg)
               (TF2DV2Intensity_1 cfg + TF2DV2Radius_1 cfg) intensity gradientMagnitude in
  if inTriangle_0 then TF2DV2Color_0 cfg
  else if inTriangle_1 then TF2DV2Color_1 cfg
  else if inTriangle_0 && inTriangle_1 then
    let opacity_1 :=
      linearOpacity (TF2DV2Intensity_0 cfg) (TF2DV2Radius_0 cfg) intensity gradientMagnitude in
    let opacity_2 :=
      linearOpacity (TF2DV2Intensity_1 cfg) (TF2DV2Radius_1 cfg) intensity gradientMagnitude in
    if opacity_1 >? opacity_2 then TF2DV2Color_0 cfg else TF2DV2Color_1 cfg
  else mkvec4 (Fin 0) (Fin 0) (Fin 0) (Fin 0).

(** *** The ray-marching loops

    Every loop takes fuel: one unit per evaluation of its condition. *)

(** The loop of [traceRayMIP]; the state is [(t, samplePos, maxVal)]. *)
Fixpoint mip_loop (fuel : nat) (ray : Ray) (sampleStep : float) (increment : vec3)
  (t : float) (samplePos : vec3) (maxVal : float) : outcome float :=
  match fuel with
  | O => OutOfFuel
  | S fuel' =>
      if t <=? tmax ray then
        let val := sample samplePos in
        let maxVal := fmax val maxVal in
        mip_loop fuel' ray sampleStep increment (t + sampleStep) (vadd samplePos increment) maxVal
      else Ret maxVal
  end.

Definition traceRayMIP (fuel : nat) (ray : Ray) (sampleStep : float) : outcome vec4 :=
  let samplePos := vadd (origin ray) (vscale (tmin ray) (direction ray)) in
  let increment := vscale sampleStep (direction ray) in
  match mip_loop fuel ray sampleStep increment (tmin ray) samplePos (Fin 0) with
  | Ret maxVal => Ret (vec4_of (vdivs (vec3_all maxVal) volumeMaximum) (Fin 1))
  | OutOfFuel => OutOfFuel
  | Undefined => Undefined
  end.

(** The loop of [bisectionAccuracy]; the state is
    [(maxIterations, t0, t1, tMiddle)]. *)
Fixpoint bisection_loop (fuel : nat) (ray : Ray) (isoValue : float)
  (maxIterations : Z) (t0 t1 tMiddle : float) : outcome float :=
  match fuel with
  | O => OutOfFuel
  | S fuel' =>
      if (maxIterations >? 0)%Z then
        let maxIterations := int_sub maxIterations 1 in
        let tMiddle := (t0 + t1) / Fin 2 in
        let middle := vadd (origin ray) (vscale tMiddle (direction ray)) in
        let voxelValue := sample middle in
        if fabs (voxelValue - isoValue) <? Fin 0.0001 then Ret tMiddle
        else if voxelValue <? isoValue then
          bisection_loop fuel' ray isoValue maxIterations tMiddle t1 tMiddle
        else
          bisection_loop fuel' ray isoValue maxIterations t0 tMiddle tMiddle
      else Ret tMiddle
  end.

Definition bisectionAccuracy (fuel : nat) (ray : Ray) (t0 t1 isoValue : float)
  : outcome float :=
  let maxIterations := 500%Z in
  let tMiddle := (t0 + t1) / Fin 2 in
  bisection_loop fuel ray isoValue maxIterations t0 t1 tMiddle.

(** The "over" blend [alpha * c + (1 - alpha) * color] of the three
    compositing loops. *)
Definition blend (alpha : float) (c color : vec3) : vec3 :=
  vadd (vscale alpha c) (vscale (Fin 1 - alpha) color).

(** The loop of [backToFrontComposite]; the state is [(t, samplePos, color)]. *)
Fixpoint composite_loop (fuel : nat) (ray : Ray) (sampleStep : float) (increment : vec3)
  (t : float) (samplePos : vec3) (color : vec3) : outcome vec3 :=
  match fuel with
  | O => OutOfFuel
  | S fuel' =>
      if t >=? tmin ray then
        match getTFValue (sample samplePos) with
        | None => Undefined
        | Some tf_value =>
            let current_color := vec3_of_vec4 tf_value in
            let current_color :=
              if volumeShading (m_config this) then
                let gradient := getGradientVoxel (m_pGradientVolume this) samplePos in
                computePhongShading libm current_color gradient
                                    (position (m_pCamera this)) (direction ray)
              else current_color in
            let color := blend (cw tf_value) current_color color in
            composite_loop fuel' ray sampleStep increment
                           (t - sampleStep) (vsub samplePos increment) color
        end
      else Ret color
  end.

Definition backToFrontComposite (fuel : nat) (ray : Ray) (sampleStep : float)
  : outcome vec4 :=
  let samplePos := vadd (origin ray) (vscale (tmax ray) (direction ray)) in
  let increment := vscale sampleStep (direction ray) in
  match composite_loop fuel ray sampleStep increment (tmax ray) samplePos
                       (vec3_all (Fin 0)) with
  | Ret color => Ret (vec4_of color (Fin 1))
  | OutOfFuel => OutOfFuel
  | Undefined => Undefined
  end.

Definition traceRayComposite (fuel : nat) (ray : Ray) (sampleStep : float) : outcome vec4 :=
  backToFrontComposite fuel ray sampleStep.

(** The loop of [traceRayTF2D]. *)
Fixpoint tf2d_loop (fuel : nat) (ray : Ray) (sampleStep : float) (increment : vec3)
  (t : float) (samplePos : vec3) (color : vec3) : outcome vec3 :=
  match fuel with
  | O => OutOfFuel
  | S fuel' =>
      if t >=? tmin ray then
        let intensity := sample samplePos in
        let gradient := getGradientVoxel (m_pGradientVolume this) samplePos in
        let opacity :=
          getTF2DOpacity intensity (magnitude gradient) * cw (TF2DColor (m_config this)) in
        let _color := vec3_of_vec4 (TF2DColor (m_config this)) in
        let _color :=
          if volumeShading (m_config this) then
            computePhongShading libm _color gradient
                                (position (m_pCamera this)) (direction ray)
          else _color in
        let color := blend opacity _color color in
        tf2d_loop fuel' ray sampleStep increment
                  (t - sampleStep) (vsub samplePos increment) color
      else Ret color
  end.

Definition traceRayTF2D (fuel : nat) (ray : Ray) (sampleStep : float) : outcome vec4 :=
  let samplePos := vadd (origin ray) (vscale (tmax ray) (direction ray)) in
  let increment := vscale sampleStep (direction ray) in
  match tf2d_loop fuel ray sampleStep increment (tmax ray) samplePos (vec3_all (Fin 0)) with
  | Ret color => Ret (vec4_of color (Fin 1))
  | OutOfFuel => OutOfFuel
  | Undefined => Undefined
  end.

(** The loop of [traceRayTF2DV2]. *)
Fixpoint tf2dv2_loop (fuel : nat) (ray : Ray) (sampleStep : float) (increment : vec3)
  (t : float) (samplePos : vec3) (color : vec3) : outcome vec3 :=
  match fuel with
  | O => OutOfFuel
  | S fuel' =>
      if t >=? tmin ray then
        let intensity := sample samplePos in
        let gradient := getGradientVoxel (m_pGradientVolume this) samplePos in
        let opacity := getTF2DV2Opacity intensity (magnitude gradient) in
        let _color := getTF2DV2Color intensity (magnitude gradient) in
        let opacity := opacity * cw _color in
        let color := blend opacity (vec3_of_vec4 _color) color in
        tf2dv2_loop fuel' ray sampleStep increment
                    (t - sampleStep) (vsub samplePos increment) color
      else Ret color
  end.

Definition traceRayTF2DV2 (fuel : nat) (ray : Ray) (sampleStep : float) : outcome vec4 :=
  let samplePos := vadd (origin ray) (vscale (tmax ray) (direction ray)) in
  let increment := vscale sampleStep (direction ray) in
  match tf2dv2_loop fuel ray sampleStep increment (tmax ray) samplePos (vec3_all (Fin 0)) with
  | Ret color => Ret (vec4_of color (Fin 1))
  | OutOfFuel => OutOfFuel
  | Undefined => Undefined
  end.

End RendererMethods.

(** *** Maximum intensity projection scanned backward

    The source scans forward only.  The specification compares it with a
    scan "stepping backward from tmax to tmin in the same increments"; the
    definition below follows these words, with the same body as
    [traceRayMIP] and the loop header of the compositing loops
    ([t = tmax; t >= tmin; t -= sampleStep, samplePos -= increment]). *)

Section BackwardMIP.

Variable a : float.
Variable this : Renderer.

Fixpoint mip_backward_loop (fuel : nat) (ray : Ray) (sampleStep : float) (increment : vec3)
  (t : float) (samplePos : vec3) (maxVal : float) : outcome float :=
  match fuel with
  | O => OutOfFuel
  | S fuel' =>
      if t >=? tmin ray then
        let val := sample a this samplePos in
        let maxVal := fmax val maxVal in
        mip_backward_loop fuel' ray sampleStep increment
                          (t - sampleStep) (vsub samplePos increment) maxVal
      else Ret maxVal
  end.

Definition traceRayMIP_backward (fuel : nat) (ray : Ray) (sampleStep : float)
  : outcome vec4 :=
  let samplePos := vadd (origin ray) (vscale (tmax ray) (direction ray)) in
  let increment := vscale sampleStep (direction ray) in
  match mip_backward_loop fuel ray sampleStep increment (tmax ray) samplePos (Fin 0) with
  | Ret maxVal => Ret (vec4_of (vdivs (vec3_all maxVal) (volumeMaximum this)) (Fin 1))
  | OutOfFuel => OutOfFuel
  | Undefined => Undefined
  end.

End BackwardMIP.

(** *** The frame buffer and the pixel loops of [Renderer::render] *)

(** [v[i] = x] on a [std::vector]; an index past the end, where C++ leaves
    the write undefined, changes nothing here. *)
Fixpoint vector_set {A : Type} (v : list A) (i : nat) (x : A) : list A :=
  match v, i with
  | [], _ => []
  | _ :: t, O => x :: t
  | h :: t, S k => h :: vector_set t k x
  end.

(** [lo, lo + 1, ..., hi - 1]: the values of a loop counter that starts at
    [lo] and stops at [hi]. *)
Definition int_range (lo hi : Z) : list Z :=
  map (fun k => (lo + Z.of_nat k)%Z) (seq 0 (Z.to_nat (hi - lo))).

(** [tbb::blocked_range2d<int>] *)
Record blocked_range2d : Type := mkRange2d {
  rows_begin : Z;
  rows_end : Z;
  cols_begin : Z;
  cols_end : Z
}.

Definition range_empty (r : blocked_range2d) : bool :=
  negb (rows_begin r <? rows_end r)%Z || negb (cols_begin r <? cols_end r)%Z.

(** The tiles [tbb::parallel_for] hands to the loop body: the range itself,
    or the tiles of its two halves after a split of the rows or of the
    columns. *)
Inductive tiling : blocked_range2d -> list blocked_range2d -> Prop :=
| tiling_leaf r : tiling r [r]
| tiling_rows r m l1 l2 :
    (rows_begin r < m < rows_end r)%Z ->
    tiling (mkRange2d (rows_begin r) m (cols_begin r) (cols_end r)) l1 ->
    tiling (mkRange2d m (rows_end r) (cols_begin r) (cols_end r)) l2 ->
    tiling r (l1 ++ l2)
| tiling_cols r m l1 l2 :
    (cols_begin r < m < cols_end r)%Z ->
    tiling (mkRange2d (rows_begin r) (rows_end r) (cols_begin r) m) l1 ->
    tiling (mkRange2d (rows_begin r) (rows_end r) m (cols_end r)) l2 ->
    tiling r (l1 ++ l2).

Section Render.

Variable this : Renderer.

(** The [switch] over the render mode: the colour the active trace function
    returns for an intersected ray.  The trace functions are [const] member
    functions; they read the volume, the gradient volume, the camera and
    the configuration. *)
Variable traceRay : RenderMode -> Ray -> vec4.

Definition resolution : ivec2 := renderResolution (m_config this).

Definition resetImage (fb : list vec4) : list vec4 :=
  map (fun _ => mkvec4 (Fin 0) (Fin 0) (Fin 0) (Fin 0)) fb.

Definition fillColor (x y : Z) (color : vec4) (fb : list vec4) : list vec4 :=
  let index := to_size_t (int_add (int_mul (i2x resolution) y) x) in
  vector_set fb (Z.to_nat index) color.

Definition volumeBounds : Bounds :=
  let d := m_dim (m_pVolume this) in
  mkBounds (vec3_all (Fin 0))
           (vec3_of_ivec3 (mkivec3 (int_sub (ix d) 1) (int_sub (iy d) 1) (int_sub (iz d) 1))).

(** The body of the pixel loops up to the write: [None] when the ray misses
    the volume ([continue]), else the colour of the pixel. *)
Definition pixelColor (x y : Z) : option vec4 :=
  let pixelPos :=
    mkvec2 (of_int x / of_int (i2x resolution)) (of_int y / of_int (i2y resolution)) in
  let ray :=
    generateRay (m_pCamera this)
      (mkvec2 (v2x pixelPos * Fin 2 - Fin 1) (v2y pixelPos * Fin 2 - Fin 1)) in
  let '(hit, ray) := instersectRayVolumeBounds ray volumeBounds in
  if negb hit then None
  else Some (traceRay (renderMode (m_config this)) ray).

(** The whole body of the pixel loops, as a change of the frame buffer. *)
Definition renderPixel (fb : list vec4) (p : Z * Z) : list vec4 :=
  match pixelColor (fst p) (snd p) with
  | None => fb
  | Some color => fillColor (fst p) (snd p) color fb
  end.

(** [PARALLELISM == 0]: x in the outer loop, y in the inner one. *)
Definition sequential_pixels : list (Z * Z) :=
  flat_map (fun x => map (fun y => (x, y)) (int_range 0 (i2y resolution)))
           (int_range 0 (i2x resolution)).

Definition render_sequential (fb : list vec4) : list vec4 :=
  fold_left renderPixel sequential_pixels (resetImage fb).

(** [PARALLELISM == 1]: the loops over one tile, y in the outer loop. *)
Definition tile_pixels (r : blocked_range2d) : list (Z * Z) :=
  flat_map (fun y => map (fun x => (x, y)) (int_range (cols_begin r) (cols_end r)))
           (int_range (rows_begin r) (rows_end r)).

Definition screenRange : blocked_range2d :=
  mkRange2d 0 (i2y resolution) 0 (i2x resolution).

(** The orders in which the parallel loop may run the pixel bodies: none
    for an empty screen range; otherwise the range is cut into tiles, and
    the threads interleave the pixels of the tiles in any order. *)
Definition parallel_schedule (sched : list (Z * Z)) : Prop :=
  if range_empty screenRange then sched = []
  else exists tiles, tiling screenRange tiles
                     /\ Permutation sched (flat_map tile_pixels tiles).

Definition render_parallel (sched : list (Z * Z)) (fb : list vec4) : list vec4 :=
  fold_left renderPixel sched (resetImage fb).

End Render.

End render.


(** ** Vocabulary of the properties, and example inputs *)

Module Examples.

(** The volume of dimensions (2,2,2) whose only non-zero voxel is 100 at
    (1,1,1). *)
Definition vol222 (mode : InterpolationMode) : Volume :=
  mkVolume (mkivec3 2 2 2) [0; 0; 0; 0; 0; 0; 0; 100]%N mode.

(** The volume of dimensions (2,2,2) whose only non-zero voxel is 100 at
    (0,0,0). *)
Definition vol222_origin (mode : InterpolationMode) : Volume :=
  mkVolume (mkivec3 2 2 2) [100; 0; 0; 0; 0; 0; 0; 0]%N mode.

(** The volume of dimensions (3,3,3) with the values 1 to 27. *)
Definition vol333 (mode : InterpolationMode) : Volume :=
  mkVolume (mkivec3 3 3 3) (map N.of_nat (seq 1 27)) mode.

(** A value for the kernel constant [Volume::a]. *)
Definition a_example : float := Fin (-0.5).

(** A renderer over [vol222] whose 2D classifier, and whose classifier 0 of
    variant 2, have the given centre and radius; classifier 1 of variant 2
    has its centre 10 higher. *)
Definition tf2d_renderer (center radius : float) : Renderer :=
  mkRenderer (vol222 Linear)
    (mkGradientVolume (fun _ => mkGradientVoxel (mkvec3 (Fin 0) (Fin 0) (Fin 0)) (Fin 0)))
    (mkRayTraceCamera (mkvec3 (Fin 0) (Fin 0) (Fin 0))
       (fun _ => mkRay (mkvec3 (Fin 0) (Fin 0) (Fin 0)) (mkvec3 (Fin 0) (Fin 0) (Fin 1))
                       (Fin 0) (Fin 0)))
    (mkRenderConfig (mkivec2 2 2) RenderTF2D (Fin 0) false [] (Fin 0) (Fin 1)
       center radius (mkvec4 (Fin 1) (Fin 1) (Fin 1) (Fin 1))
       center radius (mkvec4 (Fin 1) (Fin 0) (Fin 0) (Fin 1))
       (center + Fin 10) radius (mkvec4 (Fin 0) (Fin 1) (Fin 0) (Fin 1)))
    [].

(** The renderer above with classifier centre 100 and radius 50, and a ray
    along the z axis through (0.5, 0.5, z): trilinear sampling of [vol222]
    gives [25 * z] on it for [0 <= z < 1]. *)
Definition renderer_example : Renderer := tf2d_renderer (Fin 100) (Fin 50).

Definition ray_along_z : Ray :=
  mkRay (mkvec3 (Fin 0.5) (Fin 0.5) (Fin 0)) (mkvec3 (Fin 0) (Fin 0) (Fin 1))
        (Fin 0) (Fin 0.9).

End Examples.

Module VolumeSpec.

Local Open Scope float_scope.

(** A coordinate is outside [[0, dim)] on some axis. *)
Definition outside_volume (this : Volume) (coord : vec3) : Prop :=
  any_lessThan coord (vec3_all (Fin 0)) = true
  \/ any_greaterThanEqual coord (vec3_of_ivec3 (m_dim this)) = true.

(** A coordinate is outside [[-0.5, dim - 0.5)] on some axis. *)
Definition outside_shifted (this : Volume) (coord : vec3) : Prop :=
  outside_volume this (vadds coord (Fin 0.5)).

(** An integer coordinate is inside [[0, dim)] on every axis. *)
Definition in_bounds (this : Volume) (x y z : Z) : Prop :=
  (0 <= x < ix (m_dim this) /\ 0 <= y < iy (m_dim this) /\ 0 <= z < iz (m_dim this))%Z.

(** An integer coordinate is inside [[0, dim - 1)] on every axis. *)
Definition in_interior (this : Volume) (x y z : Z) : Prop :=
  (0 <= x < ix (m_dim this) - 1 /\ 0 <= y < iy (m_dim this) - 1
   /\ 0 <= z < iz (m_dim this) - 1)%Z.

(** The dimensions are values of an [int] other than [INT_MIN]. *)
Definition dims_in_int (this : Volume) : Prop :=
  (INT_MIN < ix (m_dim this) <= INT_MAX /\ INT_MIN < iy (m_dim this) <= INT_MAX
   /\ INT_MIN < iz (m_dim this) <= INT_MAX)%Z.

(** The data array holds one scalar for every coordinate, and the number of
    voxels is a value of an [int]. *)
Definition well_formed (this : Volume) : Prop :=
  (0 < ix (m_dim this) /\ 0 < iy (m_dim this) /\ 0 < iz (m_dim this)
   /\ ix (m_dim this) * iy (m_dim this) * iz (m_dim this) <= INT_MAX
   /\ Z.of_nat (length (m_data this))
      = ix (m_dim this) * iy (m_dim this) * iz (m_dim this))%Z.

(** The scalar the data model stores at a coordinate: x fastest, then y,
    then z. *)
Definition stored (this : Volume) (x y z : Z) : N :=
  nth (Z.to_nat (x + ix (m_dim this) * (y + iy (m_dim this) * z))) (m_data this) 0%N.

Definition coord_of (x y z : Z) : vec3 := mkvec3 (of_int x) (of_int y) (of_int z).

End VolumeSpec.

Module IntersectSpec.

Local Open Scope float_scope.

(** The interval of one axis in the slab test: the parameters at which the
    ray crosses the near and the far plane of the slab [[lo, hi]], for the
    origin component [o] and the direction component [d]. *)
Definition slab_near (lo hi o d : float) : float :=
  let inv := Fin 1 / d in
  ((if inv <? Fin 0 then hi else lo) - o) * inv.

Definition slab_far (lo hi o d : float) : float :=
  let inv := Fin 1 / d in
  ((if negb (inv <? Fin 0) then hi else lo) - o) * inv.

(** An axis on which the slab interval is a pair of ordered numbers: finite
    data, [lo <= hi], and a direction component that is not zero or an
    origin that lies on neither plane of the slab. *)
Definition regular_axis (lo hi o d : float) : Prop :=
  finite lo /\ finite hi /\ finite o /\ finite d
  /\ (lo <=? hi) = true
  /\ ((d =? Fin 0) = false \/ ((o =? lo) = false /\ (o =? hi) = false)).

Definition regular (ray : Ray) (bounds : Bounds) : Prop :=
  regular_axis (vx (lower bounds)) (vx (upper bounds)) (vx (origin ray)) (vx (direction ray))
  /\ regular_axis (vy (lower bounds)) (vy (upper bounds)) (vy (origin ray))
                  (vy (direction ray))
  /\ regular_axis (vz (lower bounds)) (vz (upper bounds)) (vz (origin ray))
                  (vz (direction ray)).

(** The unit cube, and a ray along the z axis whose origin lies on the
    plane x = 0 of the cube. *)
Definition unit_cube : Bounds :=
  mkBounds (mkvec3 (Fin 0) (Fin 0) (Fin 0)) (mkvec3 (Fin 1) (Fin 1) (Fin 1)).

Definition ray_on_face : Ray :=
  mkRay (mkvec3 (Fin 0) (Fin 0.5) (Fin (-1))) (mkvec3 (Fin 0) (Fin 0) (Fin 1))
        (Fin 7) (Fin 8).

(** A ray that crosses the unit cube diagonally, and one that misses it. *)
Definition ray_diagonal : Ray :=
  mkRay (mkvec3 (Fin (-1)) (Fin (-1)) (Fin (-1))) (mkvec3 (Fin 1) (Fin 1) (Fin 1))
        (Fin 7) (Fin 8).

Definition ray_missing : Ray :=
  mkRay (mkvec3 (Fin (-1)) (Fin 5) (Fin (-1))) (mkvec3 (Fin 1) (Fin 1) (Fin 1))
        (Fin 7) (Fin 8).

End IntersectSpec.

Module BisectionSpec.
Section Bracket.

Local Open Scope float_scope.

Variable a : float.
Variable this : Renderer.
Variable ray : Ray.
Variable isoValue : float.

(** The midpoint of a bracket [(t0, t1)] and the scalar sampled there. *)
Definition midpoint (b : float * float) : float := (fst b + snd b) / Fin 2.

Definition sample_at (t : float) : float :=
  render.sample a this (vadd (origin ray) (vscale t (direction ray))).

(** The early-exit test [|sample(mid) - isoValue| < 1e-4]. *)
Definition close_enough (b : float * float) : bool :=
  fabs (sample_at (midpoint b) - isoValue) <? Fin 0.0001.

(** One bisection step: the half of the bracket that is kept. *)
Definition narrow (b : float * float) : float * float :=
  if sample_at (midpoint b) <? isoValue then (midpoint b, snd b) else (fst b, midpoint b).

(** The bracket after [n] steps. *)
Fixpoint bracket (n : nat) (b : float * float) : float * float :=
  match n with
  | O => b
  | S k => bracket k (narrow b)
  end.

End Bracket.
End BisectionSpec.

Module RenderSpec.

Local Open Scope Z_scope.

(** The pixels of the image. *)
Definition on_screen (this : Renderer) (p : Z * Z) : Prop :=
  0 <= fst p < i2x (render.resolution this) /\ 0 <= snd p < i2y (render.resolution this).

(** The pixels of a range of rows and columns. *)
Definition in_range (r : render.blocked_range2d) (p : Z * Z) : Prop :=
  render.cols_begin r <= fst p < render.cols_end r
  /\ render.rows_begin r <= snd p < render.rows_end r.

(** The invariant of the frame buffer: one slot per pixel, and the number
    of pixels is a value of an [int]. *)
Definition frame_buffer_sized (this : Renderer) (fb : list vec4) : Prop :=
  i2x (render.resolution this) * i2y (render.resolution this) <= INT_MAX
  /\ Z.of_nat (length fb)
     = Z.max 0 (i2x (render.resolution this)) * Z.max 0 (i2y (render.resolution this)).

(** Black, the colour of a pixel that no ray writes. *)
Definition black : vec4 := mkvec4 (Fin 0) (Fin 0) (Fin 0) (Fin 0).

(** The slot of the pixel [(x, y)], and what the frame buffer holds there:
    the image is row-major by y, then x. *)
Definition slot (this : Renderer) (p : Z * Z) : nat :=
  Z.to_nat (i2x (render.resolution this) * snd p + fst p).

Definition pixel_at (this : Renderer) (fb : list vec4) (p : Z * Z) : vec4 :=
  nth (slot this p) fb black.

(** A 2 x 2 image: the tiles of one split of the rows and, in the upper
    half, one split of the columns; a schedule that interleaves them. *)
Definition camera_2x2 : RayTraceCamera :=
  mkRayTraceCamera (mkvec3 (Fin 0.5) (Fin 0.5) (Fin (-1)))
    (fun pos => mkRay (mkvec3 (v2x pos * Fin 0.25 + Fin 0.5) (v2y pos * Fin 0.25 + Fin 0.5)
                              (Fin (-1)))
                      (mkvec3 (Fin 0) (Fin 0) (Fin 1)) (Fin 0) (Fin 0))%fl.

Definition renderer_2x2 : Renderer :=
  mkRenderer (m_pVolume Examples.renderer_example)
             (m_pGradientVolume Examples.renderer_example)
             camera_2x2
             (m_config Examples.renderer_example)
             [black; black; black; black].

Definition tiles_2x2 : list render.blocked_range2d :=
  [render.mkRange2d 0 1 0 2; render.mkRange2d 1 2 0 1; render.mkRange2d 1 2 1 2].

Definition schedule_2x2 : list (Z * Z) := [(0, 1); (1, 0); (1, 1); (0, 0)].

(** For the example: every ray hits, and the colour encodes the ray. *)
Definition traceRay_example (mode : RenderMode) (ray : Ray) : vec4 :=
  mkvec4 (vx (origin ray)) (vy (origin ray)) (tmin ray) (Fin 1).

End RenderSpec.

Module MarchSpec.

Local Open Scope float_scope.

(** A natural number as a float. *)
Definition of_nat (n : nat) : float := of_int (Z.of_nat n).

(** The sample positions of [n] passes of a loop that starts at [p] and
    adds, or subtracts, [increment] after every pass. *)
Fixpoint positions_up (n : nat) (p increment : vec3) : list vec3 :=
  match n with
  | O => []
  | S k => p :: positions_up k (vadd p increment) increment
  end.

Fixpoint positions_down (n : nat) (p increment : vec3) : list vec3 :=
  match n with
  | O => []
  | S k => p :: positions_down k (vsub p increment) increment
  end.

(** The running maximum [maxVal = std::max(val, maxVal)] over a list of
    sampled values. *)
Definition running_max (vals : list float) (maxVal : float) : float :=
  fold_left (fun m val => fmax val m) vals maxVal.

(** The interval of the ray is [n] whole steps long. *)
Definition whole_steps (ray : Ray) (sampleStep : float) (n : nat) : Prop :=
  tmax ray =f= tmin ray + of_nat n * sampleStep.

(** Origin, direction and interval of a ray are finite. *)
Definition finite_ray (ray : Ray) : Prop :=
  finite3 (origin ray) /\ finite3 (direction ray) /\ finite (tmin ray) /\ finite (tmax ray).

(** A value in the unit interval [[0, 1]]. *)
Definition unit_range (x : float) : Prop := (Fin 0 <=? x) = true /\ (x <=? Fin 1) = true.

Definition unit_rgb (c : vec4) : Prop :=
  unit_range (cr c) /\ unit_range (cg c) /\ unit_range (cb c).

Definition unit_rgba (c : vec4) : Prop := unit_rgb c /\ unit_range (cw c).

(** Equality of results up to equality of numbers. *)
Definition outcome_eq4 (r s : outcome vec4) : Prop :=
  match r, s with
  | Ret c, Ret d => veq4 c d
  | OutOfFuel, OutOfFuel | Undefined, Undefined => True
  | _, _ => False
  end.

(** A renderer over the (2,2,2) volume whose only non-zero voxel is 100 at
    (0,0,0), and the ray from the origin along x with the interval
    [[0, 0.5]]: half a step of length 1. *)
Definition renderer_origin (mode : InterpolationMode) : Renderer :=
  mkRenderer (Examples.vol222_origin mode)
             (m_pGradientVolume Examples.renderer_example)
             (m_pCamera Examples.renderer_example)
             (m_config Examples.renderer_example)
             [].

Definition ray_half_step : Ray :=
  mkRay (mkvec3 (Fin 0) (Fin 0) (Fin 0)) (mkvec3 (Fin 1) (Fin 0) (Fin 0)) (Fin 0) (Fin 0.5).

(** The same ray with the interval [[0, 1]]: one whole step. *)
Definition ray_one_step : Ray :=
  mkRay (mkvec3 (Fin 0) (Fin 0) (Fin 0)) (mkvec3 (Fin 0.5) (Fin 0) (Fin 0)) (Fin 0) (Fin 1).

End MarchSpec.

Module CompositeSpec.

Local Open Scope float_scope.

Import MarchSpec.

Definition unit_vec3 (c : vec3) : Prop :=
  unit_range (vx c) /\ unit_range (vy c) /\ unit_range (vz c).

(** Every gradient magnitude the gradient volume returns is a number. *)
Definition magnitudes_are_numbers (this : Renderer) : Prop :=
  forall p, magnitude (getGradientVoxel (m_pGradientVolume this) p) <> NaN.

(** Laws of the C math library that hold of its functions as functions of
    real numbers: each is a function of the value of its argument; the
    arc cosine is finite on [[-1, 1]] and the cosine inverts it there;
    [cos 0 = 1]; [sqrt 1 = 1]. *)
Definition lawful (libm : MathLib) : Prop :=
  (forall x y, x =f= y -> libm_acos libm x =f= libm_acos libm y)
  /\ (forall x y, x =f= y -> libm_cos libm x =f= libm_cos libm y)
  /\ (forall x y, x =f= y -> libm_sqrt libm x =f= libm_sqrt libm y)
  /\ (forall q, -1 <= q <= 1 ->
                finite (libm_acos libm (Fin q))
                /\ libm_cos libm (libm_acos libm (Fin q)) =f= Fin q)
  /\ libm_cos libm (Fin 0) =f= Fin 1
  /\ libm_sqrt libm (Fin 1) =f= Fin 1.

(** A rational stand-in that satisfies the laws (it codes the angle
    [acos q] as [q + 2]); it shows that the laws are consistent, and
    serves where a concrete library is needed to run an example with
    volume shading off. *)
Definition libm_standin : MathLib :=
  mkMathLib
    (fun x => match x with Fin q => Fin (q + 2) | _ => NaN end)
    (fun x => match x with
              | Fin t => if Qeq_bool t 0 then Fin 1 else Fin (t - 2)
              | _ => NaN
              end)
    (fun x => x).

(** A renderer with volume shading on: the volume of [renderer_origin], a
    gradient that points along -x with magnitude 1 everywhere, the camera
    at (-1, 0, 0), and a transfer function of one white opaque entry. *)
Definition renderer_shaded : Renderer :=
  mkRenderer (Examples.vol222_origin Linear)
    (mkGradientVolume
       (fun _ => mkGradientVoxel (mkvec3 (Fin (-1)) (Fin 0) (Fin 0)) (Fin 1)))
    (mkRayTraceCamera (mkvec3 (Fin (-1)) (Fin 0) (Fin 0))
       (fun _ => mkRay (mkvec3 (Fin (-1)) (Fin 0) (Fin 0)) (mkvec3 (Fin 1) (Fin 0) (Fin 0))
                       (Fin 0) (Fin 0)))
    (mkRenderConfig (mkivec2 2 2) RenderComposite (Fin 0) true
       [mkvec4 (Fin 1) (Fin 1) (Fin 1) (Fin 1)] (Fin 0) (Fin 1)
       (Fin 100) (Fin 50) (mkvec4 (Fin 1) (Fin 1) (Fin 1) (Fin 1))
       (Fin 100) (Fin 50) (mkvec4 (Fin 1) (Fin 0) (Fin 0) (Fin 1))
       (Fin 110) (Fin 50) (mkvec4 (Fin 0) (Fin 1) (Fin 0) (Fin 1)))
    [].

(** The ray from the camera along x that enters the volume at t = 1 and is
    sampled once there. *)
Definition ray_one_sample : Ray :=
  mkRay (mkvec3 (Fin (-1)) (Fin 0) (Fin 0)) (mkvec3 (Fin 1) (Fin 0) (Fin 0)) (Fin 1) (Fin 1).

(** Every transfer-function lookup of a sample is defined: the index is a
    [size_t] and the table has an entry there. *)
Definition lookups_defined (a : float) (this : Renderer) : Prop :=
  forall p, render.getTFValue this (render.sample a this p) <> None.

(** The same scene sampled by nearest neighbour, with volume shading off
    and a transfer function of two entries. *)
Definition renderer_unshaded : Renderer :=
  mkRenderer (Examples.vol222_origin NearestNeighbour)
    (m_pGradientVolume renderer_shaded) (m_pCamera renderer_shaded)
    (mkRenderConfig (mkivec2 2 2) RenderComposite (Fin 0) false
       [mkvec4 (Fin 0) (Fin 0) (Fin 1) (Fin 0.5); mkvec4 (Fin 1) (Fin 0.5) (Fin 0) (Fin 1)]
       (Fin 0) (Fin 200)
       (Fin 100) (Fin 50) (mkvec4 (Fin 1) (Fin 1) (Fin 1) (Fin 1))
       (Fin 100) (Fin 50) (mkvec4 (Fin 1) (Fin 0) (Fin 0) (Fin 1))
       (Fin 110) (Fin 50) (mkvec4 (Fin 0) (Fin 1) (Fin 0) (Fin 1)))
    [].

(** The three compositing loops have one shape: while [t >= tmin], run a
    body on the sample position and the accumulated colour, then step
    [t] and the position back. *)

Section DownLoop.

Variable body : vec3 -> vec3 -> outcome vec3.

Fixpoint down_loop (fuel : nat) (ray : Ray) (sampleStep : float) (increment : vec3)
  (t : float) (samplePos : vec3) (color : vec3) : outcome vec3 :=
  match fuel with
  | O => OutOfFuel
  | S fuel' =>
      if t >=? tmin ray then
        match body samplePos color with
        | Ret color' =>
            down_loop fuel' ray sampleStep increment
                      (t - sampleStep) (vsub samplePos increment) color'
        | OutOfFuel => OutOfFuel
        | Undefined => Undefined
        end
      else Ret color
  end.

End DownLoop.

(** The bodies of the three compositing loops. *)
Definition composite_body (a : float) (libm : MathLib) (this : Renderer) (ray : Ray)
  (samplePos color : vec3) : outcome vec3 :=
  match render.getTFValue this (render.sample a this samplePos) with
  | None => Undefined
  | Some tf_value =>
      let current_color := vec3_of_vec4 tf_value in
      let current_color :=
        if volumeShading (m_config this) then
          render.computePhongShading libm current_color
            (getGradientVoxel (m_pGradientVolume this) samplePos)
            (position (m_pCamera this)) (direction ray)
        else current_color in
      Ret (render.blend (cw tf_value) current_color color)
  end.

Definition tf2d_body (a : float) (libm : MathLib) (this : Renderer) (ray : Ray)
  (samplePos color : vec3) : outcome vec3 :=
  let intensity := render.sample a this samplePos in
  let gradient := getGradientVoxel (m_pGradientVolume this) samplePos in
  let opacity :=
    render.getTF2DOpacity this intensity (magnitude gradient) * cw (TF2DColor (m_config this)) in
  let _color := vec3_of_vec4 (TF2DColor (m_config this)) in
  let _color :=
    if volumeShading (m_config this) then
      render.computePhongShading libm _color gradient
        (position (m_pCamera this)) (direction ray)
    else _color in
  Ret (render.blend opacity _color color).

Definition tf2dv2_body (a : float) (this : Renderer) (samplePos color : vec3)
  : outcome vec3 :=
  let intensity := render.sample a this samplePos in
  let gradient := getGradientVoxel (m_pGradientVolume this) samplePos in
  let opacity := render.getTF2DV2Opacity this intensity (magnitude gradient) in
  let _color := render.getTF2DV2Color this intensity (magnitude gradient) in
  let opacity := opacity * cw _color in
  Ret (render.blend opacity (vec3_of_vec4 _color) color).

End CompositeSpec.
(* ================================================================== *)
(** * Part II: properties *)

(** ** Machine integers *)

Module MachineIntFacts.

Local Open Scope Z_scope.

Lemma wrap32_id z : in_int z -> wrap32 z = z.
Proof.
  unfold in_int, INT_MIN, INT_MAX, wrap32. intros H.
  rewrite Z.mod_small; lia.
Qed.

Lemma wrap32_range z : in_int (wrap32 z).
Proof.
  unfold in_int, INT_MIN, INT_MAX, wrap32.
  assert (H : 0 <= (z + 2 ^ 31) mod 2 ^ 32 < 2 ^ 32) by (apply Z.mod_pos_bound; reflexivity).
  change (2 ^ 32) with 4294967296 in *. change (2 ^ 31) with 2147483648 in *. lia.
Qed.

Lemma int_add_id x y : in_int (x + y) -> int_add x y = x + y.
Proof. apply wrap32_id. Qed.

Lemma int_sub_id x y : in_int (x - y) -> int_sub x y = x - y.
Proof. apply wrap32_id. Qed.

Lemma int_mul_id x y : in_int (x * y) -> int_mul x y = x * y.
Proof. apply wrap32_id. Qed.

Lemma to_size_t_id z : 0 <= z < 2 ^ 64 -> to_size_t z = z.
Proof. intros H. unfold to_size_t. now apply Z.mod_small. Qed.

Lemma to_size_t_neg z : - 2 ^ 64 <= z < 0 -> to_size_t z = z + 2 ^ 64.
Proof.
  intros H. unfold to_size_t.
  symmetry. apply Z.mod_unique with (q := -1); lia.
Qed.

Lemma to_size_t_nonneg z : 0 <= to_size_t z.
Proof. unfold to_size_t. apply Z.mod_pos_bound. lia. Qed.

End MachineIntFacts.
Import MachineIntFacts.

(** ** Floats: comparisons, equality, compatibility *)

Module FloatFacts.

Lemma Qcompare_Lt_iff p q : (p ?= q) = Lt <-> p < q.
Proof. symmetry. apply Qlt_alt. Qed.

Lemma Qcompare_Gt_iff p q : (p ?= q) = Gt <-> q < p.
Proof. symmetry. apply Qgt_alt. Qed.

Lemma Qcompare_Eq_iff p q : (p ?= q) = Eq <-> p == q.
Proof. symmetry. apply Qeq_alt. Qed.

Lemma fltb_Fin p q : fltb (Fin p) (Fin q) = true <-> p < q.
Proof.
  unfold fltb; simpl. destruct (Qcompare_spec p q) as [H|H|H]; split; intros; try easy; lra.
Qed.

Lemma fleb_Fin p q : fleb (Fin p) (Fin q) = true <-> p <= q.
Proof.
  unfold fleb; simpl. destruct (Qcompare_spec p q) as [H|H|H]; split; intros; try easy; lra.
Qed.

Lemma feqb_Fin p q : feqb (Fin p) (Fin q) = true <-> p == q.
Proof.
  unfold feqb; simpl. destruct (Qcompare_spec p q) as [H|H|H]; split; intros; try easy; lra.
Qed.

Lemma fltb_Fin_false p q : fltb (Fin p) (Fin q) = false <-> q <= p.
Proof.
  unfold fltb; simpl. destruct (Qcompare_spec p q) as [H|H|H]; split; intros; try easy; lra.
Qed.

Lemma fleb_Fin_false p q : fleb (Fin p) (Fin q) = false <-> q < p.
Proof.
  unfold fleb; simpl. destruct (Qcompare_spec p q) as [H|H|H]; split; intros; try easy; lra.
Qed.

Lemma feqb_Fin_false p q : feqb (Fin p) (Fin q) = false <-> ~ p == q.
Proof.
  unfold feqb; simpl. destruct (Qcompare_spec p q) as [H|H|H]; split; intros; try easy; lra.
Qed.

Lemma Qeq_bool_false_iff p q : Qeq_bool p q = false <-> ~ p == q.
Proof.
  split; intros H.
  - intros E. apply Qeq_bool_iff in E. congruence.
  - destruct (Qeq_bool p q) eqn:E; [|reflexivity].
    apply Qeq_bool_iff in E. contradiction.
Qed.

Lemma Qle_bool_false_iff p q : Qle_bool p q = false <-> q < p.
Proof.
  split; intros H.
  - apply Qnot_le_lt. intros E. apply Qle_bool_iff in E. congruence.
  - destruct (Qle_bool p q) eqn:E; [|reflexivity].
    apply Qle_bool_iff in E. lra.
Qed.

(** Division of finite values by a non-zero finite value is the rational
    quotient. *)
Lemma fdiv_Fin p q : ~ q == 0 -> fdiv (Fin p) (Fin q) = Fin (p / q).
Proof.
  intros H. unfold fdiv. apply Qeq_bool_false_iff in H. now rewrite H.
Qed.

#[export] Instance feq_Equivalence : Equivalence feq.
Proof.
  split.
  - intros [p| | |]; simpl; auto. reflexivity.
  - intros [p| | |] [q| | |]; simpl; auto. intros H; now symmetry.
  - intros [p| | |] [q| | |] [r| | |]; simpl; auto; try easy.
    intros H1 H2; now rewrite H1.
Qed.

Lemma feq_Fin p q : Fin p =f= Fin q <-> p == q.
Proof. reflexivity. Qed.

Lemma feq_finite_l x y : x =f= y -> finite x -> finite y.
Proof. destruct x, y; simpl; auto. Qed.

#[export] Instance fneg_Proper : Proper (feq ==> feq) fneg.
Proof.
  intros [p| | |] [q| | |]; simpl; auto. intros H; now rewrite H.
Qed.

#[export] Instance fadd_Proper : Proper (feq ==> feq ==> feq) fadd.
Proof.
  intros [p| | |] [q| | |] H1 [r| | |] [s| | |] H2; simpl in *; auto; try easy.
  now rewrite H1, H2.
Qed.

#[export] Instance fsub_Proper : Proper (feq ==> feq ==> feq) fsub.
Proof. intros x y H1 u v H2. unfold fsub. now rewrite H1, H2. Qed.

Lemma inf_times_Proper b p q : p == q -> inf_times b p =f= inf_times b q.
Proof.
  intros H. unfold inf_times. rewrite H. reflexivity.
Qed.

#[export] Instance fmul_Proper : Proper (feq ==> feq ==> feq) fmul.
Proof.
  intros [p| | |] [q| | |] H1 [r| | |] [s| | |] H2; simpl in *; auto; try easy;
    try (now apply inf_times_Proper).
  now rewrite H1, H2.
Qed.

#[export] Instance fdiv_Proper : Proper (feq ==> feq ==> feq) fdiv.
Proof.
  intros [p| | |] [q| | |] H1 [r| | |] [s| | |] H2; simpl in *; auto; try easy.
  - rewrite H2, H1. destruct (Qeq_bool s 0) eqn:E.
    + reflexivity.
    + simpl. rewrite H1, H2. reflexivity.
  - rewrite H2. reflexivity.
  - rewrite H2. reflexivity.
Qed.

#[export] Instance fabs_Proper : Proper (feq ==> feq) fabs.
Proof.
  intros [p| | |] [q| | |]; simpl; auto. intros H; now rewrite H.
Qed.

#[export] Instance fcompare_Proper : Proper (feq ==> feq ==> eq) fcompare.
Proof.
  intros [p| | |] [q| | |] H1 [r| | |] [s| | |] H2; simpl in *; auto; try easy.
  now rewrite H1, H2.
Qed.

#[export] Instance fltb_Proper : Proper (feq ==> feq ==> eq) fltb.
Proof. intros x y H1 u v H2. unfold fltb. now rewrite H1, H2. Qed.

#[export] Instance fleb_Proper : Proper (feq ==> feq ==> eq) fleb.
Proof. intros x y H1 u v H2. unfold fleb. now rewrite H1, H2. Qed.

#[export] Instance feqb_Proper : Proper (feq ==> feq ==> eq) feqb.
Proof. intros x y H1 u v H2. unfold feqb. now rewrite H1, H2. Qed.

#[export] Instance fgtb_Proper : Proper (feq ==> feq ==> eq) fgtb.
Proof. intros x y H1 u v H2. unfold fgtb. now rewrite H1, H2. Qed.

#[export] Instance fgeb_Proper : Proper (feq ==> feq ==> eq) fgeb.
Proof. intros x y H1 u v H2. unfold fgeb. now rewrite H1, H2. Qed.

#[export] Instance fmax_Proper : Proper (feq ==> feq ==> feq) fmax.
Proof.
  intros x y H1 u v H2. unfold fmax. rewrite H1, H2.
  destruct (fltb y v); assumption.
Qed.

#[export] Instance fmin_Proper : Proper (feq ==> feq ==> feq) fmin.
Proof.
  intros x y H1 u v H2. unfold fmin. rewrite H1, H2.
  destruct (fltb v y); assumption.
Qed.

#[export] Instance fpow_Proper : Proper (feq ==> eq ==> feq) fpow.
Proof.
  intros x y H n m <-. induction n as [|n IH]; simpl.
  - reflexivity.
  - apply fmul_Proper; assumption.
Qed.

Lemma Qtrunc_comp p q : p == q -> Qtrunc p = Qtrunc q.
Proof.
  intros H. unfold Qtrunc.
  assert (E : Qle_bool 0 p = Qle_bool 0 q).
  { destruct (Qle_bool 0 p) eqn:E1, (Qle_bool 0 q) eqn:E2; try reflexivity.
    - apply Qle_bool_iff in E1. apply Qle_bool_false_iff in E2. lra.
    - apply Qle_bool_iff in E2. apply Qle_bool_false_iff in E1. lra. }
  rewrite E. destruct (Qle_bool 0 q).
  - now apply Qfloor_comp.
  - now apply Qceiling_comp.
Qed.

#[export] Instance to_int_Proper : Proper (feq ==> eq) to_int.
Proof.
  intros [p| | |] [q| | |]; simpl; auto; try easy.
  intros H. now rewrite (Qtrunc_comp _ _ H).
Qed.

Lemma Qtrunc_inject_Z z : Qtrunc (inject_Z z) = z.
Proof.
  unfold Qtrunc. destruct (Qle_bool 0 (inject_Z z)).
  - apply Qfloor_Z.
  - apply Qceiling_Z.
Qed.

Lemma to_int_of_int z : in_int z -> to_int (of_int z) = z.
Proof.
  unfold in_int, of_int, to_int. intros H. rewrite Qtrunc_inject_Z.
  destruct (INT_MIN <=? z)%Z eqn:E1, (z <=? INT_MAX)%Z eqn:E2; simpl; try reflexivity; lia.
Qed.

Lemma fltb_of_int x y : fltb (of_int x) (of_int y) = (x <? y)%Z.
Proof.
  unfold of_int. destruct (Z.ltb_spec x y) as [H|H].
  - apply fltb_Fin. now rewrite <- Zlt_Qlt.
  - apply fltb_Fin_false. now rewrite <- Zle_Qle.
Qed.

Lemma fleb_of_int x y : fleb (of_int x) (of_int y) = (x <=? y)%Z.
Proof.
  unfold of_int. destruct (Z.leb_spec x y) as [H|H].
  - apply fleb_Fin. now rewrite <- Zle_Qle.
  - apply fleb_Fin_false. now rewrite <- Zlt_Qlt.
Qed.

Lemma fsub_of_int_self x : fsub (of_int x) (of_int x) =f= Fin 0.
Proof. unfold of_int. simpl. ring. Qed.

Lemma fadd_of_int x y : fadd (of_int x) (of_int y) =f= of_int (x + y).
Proof. unfold of_int. simpl. now rewrite inject_Z_plus. Qed.

Lemma to_int_fadd_of_int z i : in_int (z + i) -> to_int (fadd (of_int z) (of_int i)) = (z + i)%Z.
Proof.
  intros H. rewrite (to_int_Proper _ _ (fadd_of_int z i)). now apply to_int_of_int.
Qed.

Lemma Qfloor_unique q n : inject_Z n <= q -> q < inject_Z (n + 1) -> Qfloor q = n.
Proof.
  intros H1 H2.
  assert (A : (n <= Qfloor q)%Z).
  { rewrite <- (Qfloor_Z n). now apply Qfloor_resp_le. }
  assert (B : (Qfloor q < n + 1)%Z).
  { rewrite Zlt_Qlt. apply Qle_lt_trans with q; [apply Qfloor_le | exact H2]. }
  lia.
Qed.

(** Rounding a non-negative integer value plus one half down gives the
    integer back. *)
Lemma to_int_of_int_plus_half z :
  (0 <= z <= INT_MAX)%Z -> to_int (fadd (of_int z) (Fin 0.5)) = z.
Proof.
  intros H. unfold of_int, to_int, fadd, Qtrunc.
  assert (H0 : 0 <= inject_Z z + 0.5).
  { assert (0 <= inject_Z z) by (change 0 with (inject_Z 0); rewrite <- Zle_Qle; lia). lra. }
  rewrite (proj2 (Qle_bool_iff _ _) H0).
  rewrite (Qfloor_unique (inject_Z z + 0.5) z).
  - assert (INT_MIN = -2147483648)%Z by reflexivity.
    destruct (INT_MIN <=? z)%Z eqn:E1, (z <=? INT_MAX)%Z eqn:E2; simpl; try reflexivity; lia.
  - lra.
  - rewrite inject_Z_plus. change (inject_Z 1) with 1. lra.
Qed.

(** Arithmetic on finite values is the arithmetic of the rationals. *)
Lemma fadd_Fin p q : fadd (Fin p) (Fin q) = Fin (p + q).
Proof. reflexivity. Qed.

Lemma fsub_Fin p q : fsub (Fin p) (Fin q) = Fin (p - q).
Proof. reflexivity. Qed.

Lemma fmul_Fin p q : fmul (Fin p) (Fin q) = Fin (p * q).
Proof. reflexivity. Qed.

Lemma fneg_Fin p : fneg (Fin p) = Fin (- p).
Proof. reflexivity. Qed.

Lemma fabs_Fin p : fabs (Fin p) = Fin (Qabs p).
Proof. reflexivity. Qed.

Create Rewrite HintDb finarith.

#[export] Hint Rewrite fadd_Fin fsub_Fin fmul_Fin fneg_Fin fabs_Fin : finarith.

(** Decide the comparisons of finite values among the hypotheses. *)
Ltac fcmp :=
  unfold fgtb, fgeb in *;
  repeat match goal with
         | H : fltb (Fin _) (Fin _) = true |- _ => apply fltb_Fin in H
         | H : fltb (Fin _) (Fin _) = false |- _ => apply fltb_Fin_false in H
         | H : fleb (Fin _) (Fin _) = true |- _ => apply fleb_Fin in H
         | H : fleb (Fin _) (Fin _) = false |- _ => apply fleb_Fin_false in H
         | H : feqb (Fin _) (Fin _) = true |- _ => apply feqb_Fin in H
         | H : feqb (Fin _) (Fin _) = false |- _ => apply feqb_Fin_false in H
         end.

Lemma fmax_cases x y : fmax x y = x \/ fmax x y = y.
Proof. unfold fmax. destruct (fltb x y); auto. Qed.

Lemma fmin_cases x y : fmin x y = x \/ fmin x y = y.
Proof. unfold fmin. destruct (fltb y x); auto. Qed.

Lemma finite_inv x : finite x -> exists q, x = Fin q.
Proof. destruct x; simpl; try easy. eauto. Qed.

Lemma finite_fadd x y : finite x -> finite y -> finite (fadd x y).
Proof. now destruct x, y. Qed.

Lemma finite_fneg x : finite x -> finite (fneg x).
Proof. now destruct x. Qed.

Lemma finite_fsub x y : finite x -> finite y -> finite (fsub x y).
Proof. now destruct x, y. Qed.

Lemma finite_fmul x y : finite x -> finite y -> finite (fmul x y).
Proof. now destruct x, y. Qed.

Lemma finite_fabs x : finite x -> finite (fabs x).
Proof. now destruct x. Qed.

Lemma finite_fpow x n : finite x -> finite (fpow x n).
Proof. intros H. induction n; simpl; [exact I | now apply finite_fmul]. Qed.

Lemma finite_fmax x y : finite x -> finite y -> finite (fmax x y).
Proof. intros. unfold fmax. now destruct (fltb x y). Qed.

Lemma finite_fmin x y : finite x -> finite y -> finite (fmin x y).
Proof. intros. unfold fmin. now destruct (fltb y x). Qed.

Lemma finite_of_int z : finite (of_int z).
Proof. exact I. Qed.

Lemma finite_Fin q : finite (Fin q).
Proof. exact I. Qed.

Create HintDb fin.

#[export] Hint Resolve finite_fadd finite_fneg finite_fsub finite_fmul finite_fabs
  finite_fpow finite_fmax finite_fmin finite_of_int finite_Fin : fin.

End FloatFacts.
Import FloatFacts.

(** ** The volume sampler *)

Module VolumeFacts.

Import Examples VolumeSpec.
Local Open Scope float_scope.

(** In bounds, [getVoxel] returns the stored scalar. *)
Lemma getVoxel_in_bounds this x y z :
  well_formed this -> in_bounds this x y z ->
  volume.getVoxel this x y z = volume.of_u16 (stored this x y z).
Proof.
  intros (Hx & Hy & Hz & Hsz & Hlen) (Bx & By & Bz).
  unfold volume.getVoxel, stored.
  destruct (m_dim this) as [dx dy dz]; simpl in *.
  assert (Hyz : (0 <= y + dy * z < dy * dz)%Z) by nia.
  assert (Hi : (0 <= x + dx * (y + dy * z) < dx * dy * dz)%Z) by nia.
  assert (INT_MAX = 2147483647)%Z by reflexivity.
  assert (INT_MIN = -2147483648)%Z by reflexivity.
  assert (dy * dz <= dx * dy * dz)%Z by nia.
  rewrite (int_mul_id dy z) by (unfold in_int; nia).
  rewrite (int_add_id y) by (unfold in_int; nia).
  rewrite (int_mul_id dx) by (unfold in_int; nia).
  rewrite (int_add_id x) by (unfold in_int; nia).
  rewrite to_size_t_id by lia.
  destruct (Z.leb_spec (Z.of_nat (length (m_data this))) (x + dx * (y + dy * z)));
    destruct (Z.ltb_spec (x + dx * (y + dy * z)) 0); simpl; try lia.
  reflexivity.
Qed.

(** [getVoxel] returns a finite, non-negative value. *)
Lemma getVoxel_Fin this x y z :
  exists q, volume.getVoxel this x y z = Fin q /\ 0 <= q.
Proof.
  unfold volume.getVoxel.
  destruct (_ || _).
  - exists 0. split; [reflexivity | lra].
  - eexists. split; [reflexivity|].
    change 0 with (inject_Z 0). rewrite <- Zle_Qle. lia.
Qed.

Lemma getVoxel_finite this x y z : finite (volume.getVoxel this x y z).
Proof. destruct (getVoxel_Fin this x y z) as (q & -> & _). exact I. Qed.

(** A flat index that is negative as an [int] is past the end as a
    [size_t]: the sampler returns 0. *)
Lemma getVoxel_negative_index this x y z :
  (Z.of_nat (length (m_data this)) <= 2 ^ 63)%Z ->
  (int_add x (int_mul (ix (m_dim this)) (int_add y (int_mul (iy (m_dim this)) z))) < 0)%Z ->
  volume.getVoxel this x y z = Fin 0.
Proof.
  intros Hlen Hneg. unfold volume.getVoxel.
  set (i := int_add x _) in *.
  assert (Hi : in_int i) by apply wrap32_range.
  unfold in_int, INT_MIN in Hi.
  rewrite to_size_t_neg by lia.
  destruct (Z.leb_spec (Z.of_nat (length (m_data this))) (i + 2 ^ 64)); [reflexivity | lia].
Qed.

(** C1 (the code departs from the claim).  The claim: [getVoxel] returns 0
    for every coordinate with a component outside [[0, dim)].  The code
    tests the flattened index only, so a coordinate outside the volume on
    one axis is read as another voxel: on the (2,2,2) volume whose only
    non-zero voxel is 100 at (1,1,1), [getVoxel 3 0 1] is 100; on the
    (3,3,3) volume holding 1..27, [getVoxel (-1) 1 0] is 3, the scalar of
    voxel (2,0,0). *)
Theorem C1_getVoxel_reads_other_voxel_out_of_bounds :
  ~ in_bounds (vol222 Linear) 3 0 1
  /\ volume.getVoxel (vol222 Linear) 3 0 1 = Fin 100
  /\ ~ in_bounds (vol333 Linear) (-1) 1 0
  /\ volume.getVoxel (vol333 Linear) (-1) 1 0 = Fin 3
  /\ volume.getVoxel (vol333 Linear) 2 0 0 = Fin 3.
Proof.
  repeat split; try reflexivity; unfold in_bounds; simpl; lia.
Qed.

(** *** Out-of-bounds sampling *)

Lemma fgeb_of_int_pred c d :
  (c >=? of_int d) = true -> (c >=? of_int (d - 1)) = true.
Proof.
  unfold fgeb, of_int. destruct c as [q| | |]; try easy.
  rewrite !fleb_Fin. intros H.
  apply Qle_trans with (inject_Z d); [|exact H].
  rewrite <- Zle_Qle. lia.
Qed.

Lemma any_ge_dim_minus_1 this coord :
  dims_in_int this ->
  any_greaterThanEqual coord (vec3_of_ivec3 (m_dim this)) = true ->
  any_greaterThanEqual coord (volume.dim_minus_1 this) = true.
Proof.
  intros (Hx & Hy & Hz). unfold any_greaterThanEqual, volume.dim_minus_1; simpl.
  assert (INT_MAX = 2147483647)%Z by reflexivity.
  assert (INT_MIN = -2147483648)%Z by reflexivity.
  rewrite !int_sub_id by (unfold in_int; lia).
  rewrite !orb_true_iff.
  intros [[H1|H1]|H1]; [left; left | left; right | right]; now apply fgeb_of_int_pred.
Qed.

Lemma getVoxelLinearInterpolate_outside this coord :
  dims_in_int this -> outside_volume this coord ->
  volume.getVoxelLinearInterpolate this coord = Fin 0.
Proof.
  intros Hd [H|H]; unfold volume.getVoxelLinearInterpolate.
  - now rewrite H.
  - rewrite (any_ge_dim_minus_1 _ _ Hd H). now rewrite orb_true_r.
Qed.

Lemma getVoxelTriCubicInterpolate_outside a this coord :
  dims_in_int this -> outside_volume this coord ->
  volume.getVoxelTriCubicInterpolate a this coord = Fin 0.
Proof.
  intros Hd [H|H]; unfold volume.getVoxelTriCubicInterpolate.
  - now rewrite H.
  - rewrite (any_ge_dim_minus_1 _ _ Hd H). now rewrite orb_true_r.
Qed.

Lemma getVoxelNN_outside this coord :
  outside_shifted this coord -> volume.getVoxelNN this coord = Fin 0.
Proof.
  intros [H|H]; unfold volume.getVoxelNN; rewrite H; [reflexivity | now rewrite orb_true_r].
Qed.

(** C2 (counterexample).  The coordinate (-0.25, 0, 0) is outside
    [[0, dim)] on the x axis, and nearest-neighbour sampling returns the
    voxel (0,0,0) there: 100, not 0. *)
Lemma C2_counterexample_nearest_below_zero :
  outside_volume (vol222_origin NearestNeighbour) (mkvec3 (Fin (-0.25)) (Fin 0) (Fin 0))
  /\ volume.getVoxelNN (vol222_origin NearestNeighbour)
       (mkvec3 (Fin (-0.25)) (Fin 0) (Fin 0)) = Fin 100.
Proof.
  split.
  - left. reflexivity.
  - reflexivity.
Qed.

(** C2 (amended).  For every coordinate with a component outside
    [[0, dim)], trilinear and tricubic sampling return 0; nearest-neighbour
    sampling returns 0 for every coordinate with a component outside
    [[-0.5, dim - 0.5)], the bounds its check shifts by 0.5. *)
Theorem C2_samplers_return_zero_outside a this coord :
  dims_in_int this ->
  (outside_volume this coord ->
   volume.getVoxelLinearInterpolate this coord = Fin 0
   /\ volume.getVoxelTriCubicInterpolate a this coord = Fin 0)
  /\ (outside_shifted this coord -> volume.getVoxelNN this coord = Fin 0).
Proof.
  intros Hd. split.
  - intros H. split.
    + now apply getVoxelLinearInterpolate_outside.
    + now apply getVoxelTriCubicInterpolate_outside.
  - apply getVoxelNN_outside.
Qed.

Lemma C2_samplers_return_zero_outside_witness :
  (volume.getVoxelLinearInterpolate (vol222 Linear) (mkvec3 (Fin 2) (Fin 0) (Fin 0)) = Fin 0
   /\ volume.getVoxelTriCubicInterpolate a_example (vol222 Linear)
        (mkvec3 (Fin 2) (Fin 0) (Fin 0)) = Fin 0)
  /\ volume.getVoxelNN (vol222 Linear) (mkvec3 (Fin 2) (Fin 0) (Fin 0)) = Fin 0.
Proof.
  assert (Hd : dims_in_int (vol222 Linear)) by (repeat split; vm_compute; easy).
  destruct (C2_samplers_return_zero_outside a_example (vol222 Linear)
              (mkvec3 (Fin 2) (Fin 0) (Fin 0)) Hd) as [H1 H2].
  split.
  - apply H1. right. reflexivity.
  - apply H2. right. reflexivity.
Defined.

(** *** Interpolation at grid points *)

Lemma linearInterpolate_at_0 g0 g1 f :
  finite g0 -> finite g1 -> f =f= Fin 0 -> volume.linearInterpolate g0 g1 f =f= g0.
Proof.
  destruct g0 as [p| | |], g1 as [q| | |], f as [r| | |]; simpl; try easy.
  intros _ _ H. rewrite H. ring.
Qed.

Lemma linearInterpolate_finite g0 g1 f :
  finite g0 -> finite g1 -> finite f -> finite (volume.linearInterpolate g0 g1 f).
Proof. intros. unfold volume.linearInterpolate. auto with fin. Qed.

Lemma weight_Fin_lt_1 al q :
  Qabs q < 1 ->
  volume.weight (Fin al) (Fin q)
  = Fin ((al + 2) * (Qabs q * (Qabs q * (Qabs q * 1)))
         + - ((al + 3) * (Qabs q * (Qabs q * 1))) + 1).
Proof.
  intros H. unfold volume.weight. simpl fabs.
  rewrite (proj2 (fltb_Fin _ _) H). reflexivity.
Qed.

Lemma weight_Fin_lt_2 al q :
  1 <= Qabs q -> Qabs q < 2 ->
  volume.weight (Fin al) (Fin q)
  = Fin (al * (Qabs q * (Qabs q * (Qabs q * 1)))
         + - (5 * al * (Qabs q * (Qabs q * 1))) + 8 * al * Qabs q + - (4 * al)).
Proof.
  intros H1 H2. unfold volume.weight. simpl fabs.
  rewrite (proj2 (fltb_Fin_false _ _) H1), (proj2 (fltb_Fin _ _) H2). reflexivity.
Qed.

Lemma weight_Fin_ge_2 al q :
  2 <= Qabs q -> volume.weight (Fin al) (Fin q) = Fin 0.
Proof.
  intros H. unfold volume.weight. simpl fabs.
  assert (H1 : 1 <= Qabs q) by lra.
  rewrite (proj2 (fltb_Fin_false _ _) H1), (proj2 (fltb_Fin_false _ _) H). reflexivity.
Qed.

Lemma weight_finite a x : finite a -> finite x -> finite (volume.weight a x).
Proof.
  intros Ha Hx. unfold volume.weight.
  destruct (fltb (fabs x) (Fin 1)); [auto 10 with fin|].
  destruct (fltb (fabs x) (Fin 2)); auto 10 with fin.
Qed.

Lemma weight_at_0 a x : finite a -> x =f= Fin 0 -> volume.weight a x =f= Fin 1.
Proof.
  destruct a as [al| | |], x as [q| | |]; simpl; try easy. intros _ H.
  assert (E : Qabs q == 0) by (rewrite H; reflexivity).
  rewrite weight_Fin_lt_1 by lra. simpl. rewrite E. ring.
Qed.

Lemma weight_at_1 a x : finite a -> x =f= Fin 1 -> volume.weight a x =f= Fin 0.
Proof.
  destruct a as [al| | |], x as [q| | |]; simpl; try easy. intros _ H.
  assert (E : Qabs q == 1) by (rewrite H; reflexivity).
  rewrite weight_Fin_lt_2 by lra. simpl. rewrite E. ring.
Qed.

Lemma weight_at_2 a x : finite a -> x =f= Fin 2 -> volume.weight a x =f= Fin 0.
Proof.
  destruct a as [al| | |], x as [q| | |]; simpl; try easy. intros _ H.
  assert (E : Qabs q == 2) by (rewrite H; reflexivity).
  rewrite weight_Fin_ge_2 by lra. reflexivity.
Qed.

Lemma cubicInterpolate_finite a g0 g1 g2 g3 f :
  finite a -> finite g0 -> finite g1 -> finite g2 -> finite g3 -> finite f ->
  finite (volume.cubicInterpolate a g0 g1 g2 g3 f).
Proof.
  intros. unfold volume.cubicInterpolate.
  repeat apply finite_fadd; apply finite_fmul; auto; apply weight_finite; auto with fin.
Qed.

Lemma cubicInterpolate_at_0 a g0 g1 g2 g3 f :
  finite a -> finite g0 -> finite g1 -> finite g2 -> finite g3 -> f =f= Fin 0 ->
  volume.cubicInterpolate a g0 g1 g2 g3 f =f= g1.
Proof.
  intros Ha H0 H1 H2 H3 Hf. unfold volume.cubicInterpolate.
  rewrite (weight_at_1 a (Fin 1 + f) Ha) by (rewrite Hf; reflexivity).
  rewrite (weight_at_0 a f Ha Hf).
  rewrite (weight_at_1 a (Fin 1 - f) Ha) by (rewrite Hf; reflexivity).
  rewrite (weight_at_2 a (Fin 2 - f) Ha) by (rewrite Hf; reflexivity).
  destruct g0 as [p0| | |], g1 as [p1| | |], g2 as [p2| | |], g3 as [p3| | |]; try easy.
  simpl. ring.
Qed.

#[export] Instance linearInterpolate_Proper :
  Proper (feq ==> feq ==> feq ==> feq) volume.linearInterpolate.
Proof.
  intros g0 g0' H0 g1 g1' H1 f f' Hf. unfold volume.linearInterpolate.
  now rewrite H0, H1, Hf.
Qed.

(** The bounds check of the trilinear and tricubic samplers passes at an
    interior grid point. *)
Lemma interior_check this x y z :
  dims_in_int this -> in_interior this x y z ->
  any_lessThan (coord_of x y z) (vec3_all (Fin 0))
  || any_greaterThanEqual (coord_of x y z) (volume.dim_minus_1 this) = false.
Proof.
  intros (Dx & Dy & Dz) (Hx & Hy & Hz).
  assert (INT_MAX = 2147483647)%Z by reflexivity.
  assert (INT_MIN = -2147483648)%Z by reflexivity.
  unfold any_lessThan, any_greaterThanEqual, volume.dim_minus_1, coord_of, fgeb; simpl.
  rewrite !int_sub_id by (unfold in_int; lia).
  change (Fin 0) with (of_int 0).
  rewrite !fltb_of_int, !fleb_of_int.
  repeat match goal with
         | |- context [(?u <? ?v)%Z] => destruct (Z.ltb_spec u v); try lia
         | |- context [(?u <=? ?v)%Z] => destruct (Z.leb_spec u v); try lia
         end.
Qed.

Lemma interior_in_int this x y z :
  dims_in_int this -> in_interior this x y z ->
  (0 <= x <= INT_MAX - 2 /\ 0 <= y <= INT_MAX - 2 /\ 0 <= z <= INT_MAX - 2)%Z.
Proof.
  intros (Dx & Dy & Dz) (Hx & Hy & Hz). lia.
Qed.

Lemma getVoxelLinearInterpolate_at_grid this x y z :
  dims_in_int this -> in_interior this x y z ->
  volume.getVoxelLinearInterpolate this (coord_of x y z) =f= volume.getVoxel this x y z.
Proof.
  intros Hd Hi. unfold volume.getVoxelLinearInterpolate.
  rewrite (interior_check _ _ _ _ Hd Hi).
  destruct (interior_in_int _ _ _ _ Hd Hi) as (Hx & Hy & Hz).
  assert (INT_MAX = 2147483647)%Z by reflexivity.
  assert (INT_MIN = -2147483648)%Z by reflexivity.
  simpl vx; simpl vy; simpl vz.
  rewrite !to_int_of_int by (unfold in_int; lia).
  cbv zeta.
  rewrite (linearInterpolate_at_0 _ _ (of_int z - of_int z));
    [| | | apply fsub_of_int_self].
  - rewrite (linearInterpolate_at_0 _ _ (of_int y - of_int y));
      [| | | apply fsub_of_int_self].
    + apply linearInterpolate_at_0; try apply getVoxel_finite. apply fsub_of_int_self.
    + apply linearInterpolate_finite; try apply getVoxel_finite. exact I.
    + apply linearInterpolate_finite; try apply getVoxel_finite. exact I.
  - repeat apply linearInterpolate_finite; try apply getVoxel_finite; exact I.
  - repeat apply linearInterpolate_finite; try apply getVoxel_finite; exact I.
Qed.

Lemma bicubic_row_finite a this xy z y fac_y i :
  finite a -> finite fac_y -> finite (volume.bicubic_row a this xy z y fac_y i).
Proof.
  intros Ha Hf. unfold volume.bicubic_row.
  apply cubicInterpolate_finite; auto; apply getVoxel_finite.
Qed.

Lemma bicubicInterpolateXY_at_grid a this x y z :
  finite a -> (0 <= x < INT_MAX)%Z -> (0 <= y < INT_MAX)%Z ->
  volume.bicubicInterpolateXY a this (mkvec2 (of_int x) (of_int y)) z
  =f= volume.getVoxel this x y z.
Proof.
  intros Ha Hx Hy.
  assert (INT_MAX = 2147483647)%Z by reflexivity.
  assert (INT_MIN = -2147483648)%Z by reflexivity.
  unfold volume.bicubicInterpolateXY. simpl v2x; simpl v2y.
  rewrite !to_int_of_int by (unfold in_int; lia).
  cbv zeta.
  rewrite cubicInterpolate_at_0;
    try apply bicubic_row_finite; auto with fin; try apply fsub_of_int_self.
  unfold volume.bicubic_row. simpl v2x.
  rewrite to_int_fadd_of_int by (unfold in_int; lia).
  rewrite cubicInterpolate_at_0; auto; try apply getVoxel_finite;
    try apply fsub_of_int_self.
  rewrite Z.add_0_r.
  rewrite (int_sub_id y 1) by (unfold in_int; lia).
  rewrite int_add_id by (unfold in_int; lia).
  replace (y - 1 + 1)%Z with y by lia. reflexivity.
Qed.

Lemma getVoxelTriCubicInterpolate_at_grid a this x y z :
  finite a -> dims_in_int this -> in_interior this x y z ->
  volume.getVoxelTriCubicInterpolate a this (coord_of x y z) =f= volume.getVoxel this x y z.
Proof.
  intros Ha Hd Hi. unfold volume.getVoxelTriCubicInterpolate.
  rewrite (interior_check _ _ _ _ Hd Hi).
  destruct (interior_in_int _ _ _ _ Hd Hi) as (Hx & Hy & Hz).
  assert (INT_MAX = 2147483647)%Z by reflexivity.
  assert (INT_MIN = -2147483648)%Z by reflexivity.
  simpl vx; simpl vy; simpl vz. cbv zeta.
  rewrite !to_int_fadd_of_int by (unfold in_int; lia).
  rewrite !to_int_of_int by (unfold in_int; lia).
  assert (E : volume.cubicInterpolate a
                (volume.bicubicInterpolateXY a this (mkvec2 (of_int x) (of_int y)) (z + -1))
                (volume.bicubicInterpolateXY a this (mkvec2 (of_int x) (of_int y)) (z + 0))
                (volume.bicubicInterpolateXY a this (mkvec2 (of_int x) (of_int y)) (z + 1))
                (volume.bicubicInterpolateXY a this (mkvec2 (of_int x) (of_int y)) (z + 2))
                (of_int z - of_int z)
              =f= volume.getVoxel this x y z).
  { rewrite cubicInterpolate_at_0; auto; try apply fsub_of_int_self;
      try (eapply feq_finite_l;
           [symmetry; apply bicubicInterpolateXY_at_grid; auto; lia
           | apply getVoxel_finite]).
    rewrite Z.add_0_r. apply bicubicInterpolateXY_at_grid; auto; lia. }
  match goal with |- (if ?v <? _ then _ else _) =f= _ => set (value := v) in * end.
  destruct (getVoxel_Fin this x y z) as (q & Eq & Hq). rewrite Eq in *.
  assert (Hv : (value <? Fin 0) = false).
  { rewrite E. now apply fltb_Fin_false. }
  rewrite Hv. exact E.
Qed.

(** The bounds check of the trilinear and tricubic samplers fails at an
    in-bounds grid point that has a component equal to [dim - 1]. *)
Lemma last_plane_check this x y z :
  dims_in_int this -> in_bounds this x y z -> ~ in_interior this x y z ->
  any_greaterThanEqual (coord_of x y z) (volume.dim_minus_1 this) = true.
Proof.
  intros (Dx & Dy & Dz) (Hx & Hy & Hz) Hn.
  assert (INT_MAX = 2147483647)%Z by reflexivity.
  assert (INT_MIN = -2147483648)%Z by reflexivity.
  unfold any_greaterThanEqual, volume.dim_minus_1, coord_of, fgeb; simpl.
  rewrite !int_sub_id by (unfold in_int; lia).
  rewrite !fleb_of_int. unfold in_interior in Hn.
  rewrite !orb_true_iff, !Z.leb_le. lia.
Qed.

Lemma getVoxelNN_at_grid this x y z :
  dims_in_int this -> in_bounds this x y z ->
  volume.getVoxelNN this (coord_of x y z) = volume.getVoxel this x y z.
Proof.
  intros (Dx & Dy & Dz) (Hx & Hy & Hz).
  unfold volume.getVoxelNN, volume.roundToPositiveInt. simpl vx; simpl vy; simpl vz.
  rewrite !to_int_of_int_plus_half by lia.
  assert (E : any_lessThan (vadds (coord_of x y z) (Fin 0.5)) (vec3_all (Fin 0))
              || any_greaterThanEqual (vadds (coord_of x y z) (Fin 0.5))
                   (vec3_of_ivec3 (m_dim this)) = false).
  { unfold any_lessThan, any_greaterThanEqual, coord_of, of_int, fgeb; simpl.
    assert (Ax : 0 <= inject_Z x /\ inject_Z x + 1 <= inject_Z (ix (m_dim this))).
    { split; [change 0 with (inject_Z 0) | change 1 with (inject_Z 1);
              rewrite <- inject_Z_plus]; rewrite <- Zle_Qle; lia. }
    assert (Ay : 0 <= inject_Z y /\ inject_Z y + 1 <= inject_Z (iy (m_dim this))).
    { split; [change 0 with (inject_Z 0) | change 1 with (inject_Z 1);
              rewrite <- inject_Z_plus]; rewrite <- Zle_Qle; lia. }
    assert (Az : 0 <= inject_Z z /\ inject_Z z + 1 <= inject_Z (iz (m_dim this))).
    { split; [change 0 with (inject_Z 0) | change 1 with (inject_Z 1);
              rewrite <- inject_Z_plus]; rewrite <- Zle_Qle; lia. }
    rewrite !orb_false_iff. repeat split;
      first [apply fltb_Fin_false | apply fleb_Fin_false]; lra. }
  rewrite E. reflexivity.
Qed.




End VolumeFacts.

(** ** The samplers respect equality of numbers and return finite values *)

Module SamplerCompat.

Import VolumeFacts.
Local Open Scope float_scope.

#[export] Instance veq_Equivalence : Equivalence veq.
Proof.
  split.
  - intros p. repeat split; reflexivity.
  - intros p q (H1 & H2 & H3). repeat split; now symmetry.
  - intros p q r (H1 & H2 & H3) (K1 & K2 & K3).
    repeat split; etransitivity; eassumption.
Qed.

#[export] Instance veq4_Equivalence : Equivalence veq4.
Proof.
  split.
  - intros p. repeat split; reflexivity.
  - intros p q (H1 & H2 & H3 & H4). repeat split; now symmetry.
  - intros p q r (H1 & H2 & H3 & H4) (K1 & K2 & K3 & K4).
    repeat split; etransitivity; eassumption.
Qed.

#[export] Instance vx_Proper : Proper (veq ==> feq) vx.
Proof. intros p q (H & _ & _). exact H. Qed.

#[export] Instance vy_Proper : Proper (veq ==> feq) vy.
Proof. intros p q (_ & H & _). exact H. Qed.

#[export] Instance vz_Proper : Proper (veq ==> feq) vz.
Proof. intros p q (_ & _ & H). exact H. Qed.

#[export] Instance mkvec3_Proper : Proper (feq ==> feq ==> feq ==> veq) mkvec3.
Proof. intros x x' Hx y y' Hy z z' Hz. repeat split; assumption. Qed.

#[export] Instance vadd_Proper : Proper (veq ==> veq ==> veq) vadd.
Proof.
  intros p p' (H1 & H2 & H3) q q' (K1 & K2 & K3). unfold vadd.
  repeat split; simpl; apply fadd_Proper; assumption.
Qed.

#[export] Instance vsub_Proper : Proper (veq ==> veq ==> veq) vsub.
Proof.
  intros p p' (H1 & H2 & H3) q q' (K1 & K2 & K3). unfold vsub.
  repeat split; simpl; apply fsub_Proper; assumption.
Qed.

#[export] Instance vscale_Proper : Proper (feq ==> veq ==> veq) vscale.
Proof.
  intros s s' Hs q q' (K1 & K2 & K3). unfold vscale.
  repeat split; simpl; apply fmul_Proper; assumption.
Qed.

#[export] Instance vadds_Proper : Proper (veq ==> feq ==> veq) vadds.
Proof.
  intros p p' (H1 & H2 & H3) s s' Hs. unfold vadds.
  repeat split; simpl; apply fadd_Proper; assumption.
Qed.

#[export] Instance any_lessThan_Proper : Proper (veq ==> veq ==> eq) any_lessThan.
Proof.
  intros p p' (H1 & H2 & H3) q q' (K1 & K2 & K3). unfold any_lessThan.
  now rewrite H1, H2, H3, K1, K2, K3.
Qed.

#[export] Instance any_greaterThanEqual_Proper :
  Proper (veq ==> veq ==> eq) any_greaterThanEqual.
Proof.
  intros p p' (H1 & H2 & H3) q q' (K1 & K2 & K3). unfold any_greaterThanEqual.
  now rewrite H1, H2, H3, K1, K2, K3.
Qed.

Lemma finite3_vadd p q : finite3 p -> finite3 q -> finite3 (vadd p q).
Proof. intros (A & B & C) (D & E & F). repeat split; simpl; auto with fin. Qed.

Lemma finite3_vsub p q : finite3 p -> finite3 q -> finite3 (vsub p q).
Proof. intros (A & B & C) (D & E & F). repeat split; simpl; auto with fin. Qed.

Lemma finite3_vscale s q : finite s -> finite3 q -> finite3 (vscale s q).
Proof. intros A (D & E & F). repeat split; simpl; auto with fin. Qed.

Lemma veq_finite3 p q : veq p q -> finite3 p -> finite3 q.
Proof.
  intros (H1 & H2 & H3) (A & B & C).
  repeat split; eapply feq_finite_l; eassumption.
Qed.

(** The components of a finite vector are rationals. *)
Lemma finite3_inv p :
  finite3 p -> exists x y z, vx p = Fin x /\ vy p = Fin y /\ vz p = Fin z.
Proof.
  intros (A & B & C).
  destruct (finite_inv _ A) as (x & Ex), (finite_inv _ B) as (y & Ey),
    (finite_inv _ C) as (z & Ez).
  exists x, y, z. auto.
Qed.

(** *** Nearest neighbour *)

Lemma getVoxelNN_compat this p q :
  veq p q -> volume.getVoxelNN this p = volume.getVoxelNN this q.
Proof.
  intros H. unfold volume.getVoxelNN, volume.roundToPositiveInt.
  rewrite H at 1 2. destruct H as (H1 & H2 & H3).
  rewrite (to_int_Proper _ _ (fadd_Proper _ _ H1 _ _ (reflexivity (Fin 0.5)))).
  rewrite (to_int_Proper _ _ (fadd_Proper _ _ H2 _ _ (reflexivity (Fin 0.5)))).
  rewrite (to_int_Proper _ _ (fadd_Proper _ _ H3 _ _ (reflexivity (Fin 0.5)))).
  reflexivity.
Qed.

Lemma getVoxelNN_finite this p : finite (volume.getVoxelNN this p).
Proof.
  unfold volume.getVoxelNN. destruct (_ || _); [exact I | apply getVoxel_finite].
Qed.

(** *** Trilinear *)

Lemma getVoxelLinearInterpolate_compat this p q :
  veq p q ->
  volume.getVoxelLinearInterpolate this p =f= volume.getVoxelLinearInterpolate this q.
Proof.
  intros H. unfold volume.getVoxelLinearInterpolate.
  rewrite H at 1 2. destruct H as (H1 & H2 & H3).
  destruct (_ || _); [reflexivity|]. cbv zeta.
  rewrite (to_int_Proper _ _ H1), (to_int_Proper _ _ H2), (to_int_Proper _ _ H3).
  rewrite H1, H2, H3. reflexivity.
Qed.

Lemma getVoxelLinearInterpolate_finite this p :
  finite3 p -> finite (volume.getVoxelLinearInterpolate this p).
Proof.
  intros (A & B & C). unfold volume.getVoxelLinearInterpolate.
  destruct (_ || _); [exact I|]. cbv zeta.
  repeat apply linearInterpolate_finite; try apply getVoxel_finite; auto with fin.
Qed.

(** *** Tricubic *)

Lemma weight_compat a x y : x =f= y -> volume.weight a x =f= volume.weight a y.
Proof.
  intros H. unfold volume.weight. cbv zeta.
  rewrite (fltb_Proper _ _ (fabs_Proper _ _ H) _ _ (reflexivity (Fin 1))).
  rewrite (fltb_Proper _ _ (fabs_Proper _ _ H) _ _ (reflexivity (Fin 2))).
  destruct (fabs y <? Fin 1); [now rewrite H|].
  destruct (fabs y <? Fin 2); [now rewrite H | reflexivity].
Qed.

#[export] Instance weight_Proper a : Proper (feq ==> feq) (volume.weight a).
Proof. intros x y H. now apply weight_compat. Qed.

#[export] Instance cubicInterpolate_Proper a :
  Proper (feq ==> feq ==> feq ==> feq ==> feq ==> feq) (volume.cubicInterpolate a).
Proof.
  intros g0 g0' H0 g1 g1' H1 g2 g2' H2 g3 g3' H3 f f' Hf.
  unfold volume.cubicInterpolate. now rewrite H0, H1, H2, H3, Hf.
Qed.

Lemma bicubicInterpolateXY_compat a this x y x' y' z :
  x =f= x' -> y =f= y' ->
  volume.bicubicInterpolateXY a this (mkvec2 x y) z
  =f= volume.bicubicInterpolateXY a this (mkvec2 x' y') z.
Proof.
  intros Hx Hy. unfold volume.bicubicInterpolateXY, volume.bicubic_row.
  cbn [v2x v2y]. cbv zeta.
  rewrite (to_int_Proper _ _ Hx), (to_int_Proper _ _ Hy).
  rewrite !(to_int_Proper _ _ (fadd_Proper _ _ Hx _ _ (reflexivity _))).
  rewrite Hx, Hy. reflexivity.
Qed.

Lemma bicubicInterpolateXY_finite a this xy z :
  finite a -> finite (v2x xy) -> finite (v2y xy) ->
  finite (volume.bicubicInterpolateXY a this xy z).
Proof.
  intros Ha Hx Hy. unfold volume.bicubicInterpolateXY. cbv zeta.
  apply cubicInterpolate_finite; auto with fin; apply bicubic_row_finite; auto with fin.
Qed.

Lemma getVoxelTriCubicInterpolate_compat a this p q :
  veq p q ->
  volume.getVoxelTriCubicInterpolate a this p =f= volume.getVoxelTriCubicInterpolate a this q.
Proof.
  intros H. unfold volume.getVoxelTriCubicInterpolate.
  rewrite H at 1 2. destruct H as (H1 & H2 & H3).
  destruct (_ || _); [reflexivity|]. cbv zeta.
  rewrite (to_int_Proper _ _ H3).
  rewrite !(to_int_Proper _ _ (fadd_Proper _ _ H3 _ _ (reflexivity _))).
  set (z := to_int (vz q)).
  assert (E : forall zz,
             volume.bicubicInterpolateXY a this (mkvec2 (vx p) (vy p)) zz
             =f= volume.bicubicInterpolateXY a this (mkvec2 (vx q) (vy q)) zz).
  { intros zz. now apply bicubicInterpolateXY_compat. }
  assert (V : volume.cubicInterpolate a
                (volume.bicubicInterpolateXY a this (mkvec2 (vx p) (vy p))
                   (to_int (vz q + of_int (-1))))
                (volume.bicubicInterpolateXY a this (mkvec2 (vx p) (vy p))
                   (to_int (vz q + of_int 0)))
                (volume.bicubicInterpolateXY a this (mkvec2 (vx p) (vy p))
                   (to_int (vz q + of_int 1)))
                (volume.bicubicInterpolateXY a this (mkvec2 (vx p) (vy p))
                   (to_int (vz q + of_int 2)))
                (vz p - of_int z)
              =f= volume.cubicInterpolate a
                (volume.bicubicInterpolateXY a this (mkvec2 (vx q) (vy q))
                   (to_int (vz q + of_int (-1))))
                (volume.bicubicInterpolateXY a this (mkvec2 (vx q) (vy q))
                   (to_int (vz q + of_int 0)))
                (volume.bicubicInterpolateXY a this (mkvec2 (vx q) (vy q))
                   (to_int (vz q + of_int 1)))
                (volume.bicubicInterpolateXY a this (mkvec2 (vx q) (vy q))
                   (to_int (vz q + of_int 2)))
                (vz q - of_int z)).
  { rewrite !E, H3. reflexivity. }
  match goal with
  | |- (if ?u <? _ then _ else _) =f= (if ?v <? _ then _ else _) =>
      set (value := u) in *; set (value' := v) in *
  end.
  rewrite (fltb_Proper _ _ V _ _ (reflexivity (Fin 0))).
  destruct (value' <? Fin 0); [reflexivity | exact V].
Qed.

Lemma getVoxelTriCubicInterpolate_finite a this p :
  finite a -> finite3 p -> finite (volume.getVoxelTriCubicInterpolate a this p).
Proof.
  intros Ha (A & B & C). unfold volume.getVoxelTriCubicInterpolate.
  destruct (_ || _); [exact I|]. cbv zeta.
  match goal with |- finite (if ?u <? _ then _ else _) => destruct (u <? Fin 0) end;
    [exact I|].
  apply cubicInterpolate_finite; auto with fin; apply bicubicInterpolateXY_finite; auto.
Qed.

(** *** The dispatch *)

Lemma getVoxelInterpolate_compat a this p q :
  veq p q -> volume.getVoxelInterpolate a this p =f= volume.getVoxelInterpolate a this q.
Proof.
  intros H. unfold volume.getVoxelInterpolate. destruct (interpolationMode this).
  - rewrite (getVoxelNN_compat this p q H). reflexivity.
  - now apply getVoxelLinearInterpolate_compat.
  - now apply getVoxelTriCubicInterpolate_compat.
Qed.

Lemma getVoxelInterpolate_finite a this p :
  finite a -> finite3 p -> finite (volume.getVoxelInterpolate a this p).
Proof.
  intros Ha Hp. unfold volume.getVoxelInterpolate. destruct (interpolationMode this).
  - apply getVoxelNN_finite.
  - now apply getVoxelLinearInterpolate_finite.
  - now apply getVoxelTriCubicInterpolate_finite.
Qed.

#[export] Instance sample_Proper a this : Proper (veq ==> feq) (render.sample a this).
Proof. intros p q H. unfold render.sample. now apply getVoxelInterpolate_compat. Qed.

Lemma sample_finite a this p : finite a -> finite3 p -> finite (render.sample a this p).
Proof. intros. unfold render.sample. now apply getVoxelInterpolate_finite. Qed.

End SamplerCompat.

(** ** The 2D transfer functions *)

Module TransferFacts.

Import Examples.
Local Open Scope float_scope.

(** What [inTriangle] guarantees of finite arguments, for the triangle of a
    classifier of centre [qc] and radius [qr]. *)
Lemma inTriangle_inside qc qr qi qm :
  render.inTriangle (Fin qc - Fin qr) (Fin qc) (Fin qc + Fin qr) (Fin qi) (Fin qm) = true ->
  0 < qr /\ 0 < qm /\ Qabs (qc - qi) < qr * (qm / 255).
Proof.
  unfold render.inTriangle. autorewrite with finarith.
  destruct (Fin qi <=? Fin (qc - qr)) eqn:E1; [discriminate|].
  destruct (Fin qi >=? Fin (qc + qr)) eqn:E2; [discriminate|].
  destruct (Fin qm <=? Fin 0) eqn:E3; [discriminate|].
  simpl orb. cbv iota. fcmp.
  assert (Hr : 0 < qr) by lra.
  destruct (Fin qi =? Fin qc) eqn:E4; fcmp.
  - intros _. repeat split; try lra.
    assert (E : Qabs (qc - qi) == 0).
    { assert (X : qc - qi == 0) by lra. rewrite X. reflexivity. }
    rewrite E. apply Qmult_lt_0_compat; [lra|].
    apply Qlt_shift_div_l; lra.
  - destruct (Fin qi <? Fin qc) eqn:E5; fcmp.
    + rewrite fdiv_Fin by lra. autorewrite with finarith. intros H. fcmp.
      repeat split; try lra.
      rewrite Qabs_pos by lra.
      assert (D : (qc - qi) / (qc - (qc - qr)) == (qc - qi) / qr).
      { apply Qdiv_comp; ring. }
      rewrite D in H.
      assert (D2 : (qc - qi) == ((qc - qi) / qr) * qr) by (field; lra).
      assert (D3 : qm / 255 == qm * (1 # 255)) by reflexivity.
      rewrite D3. set (d := ((qc - qi) / qr)%Q) in *. nra.
    + rewrite fdiv_Fin by lra. autorewrite with finarith. intros H. fcmp.
      repeat split; try lra.
      rewrite Qabs_neg by lra.
      assert (D : (qi - qc) / (qc + qr - qc) == (qi - qc) / qr).
      { apply Qdiv_comp; ring. }
      rewrite D in H.
      assert (D2 : (qi - qc) == ((qi - qc) / qr) * qr) by (field; lra).
      assert (D3 : qm / 255 == qm * (1 # 255)) by reflexivity.
      rewrite D3. set (d := ((qi - qc) / qr)%Q) in *. nra.
Qed.

(** The tent opacity of a point inside the triangle: the divisor is
    positive and the opacity lies in (0, 1]. *)
Lemma linearOpacity_inside qc qr qi qm :
  0 < qr -> 0 < qm -> Qabs (qc - qi) < qr * (qm / 255) ->
  exists o, render.linearOpacity (Fin qc) (Fin qr) (Fin qi) (Fin qm) = Fin o
            /\ 0 < o <= 1.
Proof.
  intros Hr Hm Ha. unfold render.linearOpacity.
  rewrite (fdiv_Fin qm 255) by lra. autorewrite with finarith.
  assert (Hw : 0 < qr * (qm / 255)).
  { apply Qmult_lt_0_compat; [lra|]. apply Qlt_shift_div_l; lra. }
  rewrite fdiv_Fin by lra. autorewrite with finarith.
  eexists. split; [reflexivity|].
  assert (A0 : 0 <= Qabs (qc - qi)) by apply Qabs_nonneg.
  assert (R0 : 0 <= Qabs (qc - qi) / (qr * (qm / 255))).
  { apply Qle_shift_div_l; lra. }
  assert (R1 : Qabs (qc - qi) / (qr * (qm / 255)) < 1).
  { apply Qlt_shift_div_r; lra. }
  lra.
Qed.

(** The first test of [inTriangle], for a finite triangle: a point that
    passes has a finite intensity strictly between the base corners and a
    magnitude that is positive or NaN. *)
Lemma inTriangle_base qc qr i m :
  render.inTriangle (Fin qc - Fin qr) (Fin qc) (Fin qc + Fin qr) i m = true ->
  exists qi, i = Fin qi /\ qc - qr < qi < qc + qr /\ (m <=? Fin 0) = false.
Proof.
  unfold render.inTriangle. autorewrite with finarith.
  destruct i as [qi| | |]; try (simpl; discriminate).
  - destruct (Fin qi <=? Fin (qc - qr)) eqn:E1; [discriminate|].
    destruct (Fin qi >=? Fin (qc + qr)) eqn:E2; [discriminate|].
    destruct (m <=? Fin 0) eqn:E3; [discriminate|].
    fcmp. intros _. exists qi. repeat split; lra.
  - destruct (m <=? Fin 0); simpl; [discriminate|].
    unfold fgtb, fltb; simpl. discriminate.
Qed.

(** With an infinite magnitude, a point between the base corners is inside
    and its opacity is 1. *)
Lemma linearOpacity_PInf qc qr qi :
  0 < qr -> render.linearOpacity (Fin qc) (Fin qr) (Fin qi) PInf = Fin (1 - 0).
Proof.
  intros Hr. unfold render.linearOpacity. simpl fdiv.
  unfold fmul, inf_times. rewrite (proj2 (Qcompare_Gt_iff qr 0) Hr). reflexivity.
Qed.



Lemma getTF2DOpacity_scenario :
  render.getTF2DOpacity (tf2d_renderer (Fin 100) (Fin 50)) (Fin 100) (Fin 255) =f= Fin 1
  /\ render.getTF2DOpacity (tf2d_renderer (Fin 100) (Fin 50)) (Fin 100) (Fin 0) = Fin 0
  /\ render.getTF2DOpacity (tf2d_renderer (Fin 100) (Fin 50)) (Fin 150) (Fin 255) = Fin 0
  /\ render.getTF2DOpacity (tf2d_renderer (Fin 100) (Fin 50)) (Fin 125) (Fin 255)
     =f= Fin 0.5.
Proof. repeat split. Qed.

(** *** Variant 2: two classifiers *)

(** The third branch of [getTF2DV2Opacity] and of [getTF2DV2Color] (the
    point lies in both triangles) is never taken: both functions are the
    two-way choice that looks at classifier 0 first. *)
Lemma getTF2DV2_resolution_branch_is_dead this intensity gradientMagnitude :
  let cfg := m_config this in
  let inTriangle_0 :=
    render.inTriangle (TF2DV2Intensity_0 cfg - TF2DV2Radius_0 cfg) (TF2DV2Intensity_0 cfg)
      (TF2DV2Intensity_0 cfg + TF2DV2Radius_0 cfg) intensity gradientMagnitude in
  let inTriangle_1 :=
    render.inTriangle (TF2DV2Intensity_1 cfg - TF2DV2Radius_1 cfg) (TF2DV2Intensity_1 cfg)
      (TF2DV2Intensity_1 cfg + TF2DV2Radius_1 cfg) intensity gradientMagnitude in
  render.getTF2DV2Opacity this intensity gradientMagnitude
  = (if inTriangle_0 then
       render.linearOpacity (TF2DV2Intensity_0 cfg) (TF2DV2Radius_0 cfg)
         intensity gradientMagnitude
     else if inTriangle_1 then
       render.linearOpacity (TF2DV2Intensity_1 cfg) (TF2DV2Radius_1 cfg)
         intensity gradientMagnitude
     else Fin 0)
  /\ render.getTF2DV2Color this intensity gradientMagnitude
     = (if inTriangle_0 then TF2DV2Color_0 cfg
        else if inTriangle_1 then TF2DV2Color_1 cfg
        else mkvec4 (Fin 0) (Fin 0) (Fin 0) (Fin 0)).
Proof.
  cbv zeta. unfold render.getTF2DV2Opacity, render.getTF2DV2Color.
  destruct (render.inTriangle _ _ _ _ _); [split; reflexivity|].
  destruct (render.inTriangle _ _ _ _ _); split; reflexivity.
Qed.

(** C8.  For a point inside both triangles of variant 2,
    [getTF2DV2Opacity] returns the tent opacity of classifier 0 and
    [getTF2DV2Color] its colour: classifier 0 always wins, whichever
    opacity is larger. *)
Theorem C8_classifier_0_wins_inside_both this intensity gradientMagnitude :
  let cfg := m_config this in
  render.inTriangle (TF2DV2Intensity_0 cfg - TF2DV2Radius_0 cfg) (TF2DV2Intensity_0 cfg)
    (TF2DV2Intensity_0 cfg + TF2DV2Radius_0 cfg) intensity gradientMagnitude = true ->
  render.inTriangle (TF2DV2Intensity_1 cfg - TF2DV2Radius_1 cfg) (TF2DV2Intensity_1 cfg)
    (TF2DV2Intensity_1 cfg + TF2DV2Radius_1 cfg) intensity gradientMagnitude = true ->
  render.getTF2DV2Opacity this intensity gradientMagnitude
  = render.linearOpacity (TF2DV2Intensity_0 cfg) (TF2DV2Radius_0 cfg)
      intensity gradientMagnitude
  /\ render.getTF2DV2Color this intensity gradientMagnitude = TF2DV2Color_0 cfg.
Proof.
  cbv zeta. intros H0 H1.
  destruct (getTF2DV2_resolution_branch_is_dead this intensity gradientMagnitude)
    as [EO EC].
  cbv zeta in EO, EC. rewrite EO, EC, H0. split; reflexivity.
Qed.

(** Classifier 0 at (100, 50), classifier 1 at (110, 50): the point
    (108, 255) is inside both; the opacity of classifier 1 (0.96) is the
    larger one, and the code returns that of classifier 0 (0.84) with the
    colour of classifier 0. *)
Lemma C8_classifier_0_wins_inside_both_witness :
  (render.getTF2DV2Opacity (tf2d_renderer (Fin 100) (Fin 50)) (Fin 108) (Fin 255)
   = render.linearOpacity (Fin 100) (Fin 50) (Fin 108) (Fin 255)
   /\ render.getTF2DV2Color (tf2d_renderer (Fin 100) (Fin 50)) (Fin 108) (Fin 255)
      = mkvec4 (Fin 1) (Fin 0) (Fin 0) (Fin 1))
  /\ render.linearOpacity (Fin 100) (Fin 50) (Fin 108) (Fin 255) =f= Fin 0.84
  /\ render.linearOpacity (Fin 100 + Fin 10) (Fin 50) (Fin 108) (Fin 255) =f= Fin 0.96.
Proof.
  split.
  - apply (C8_classifier_0_wins_inside_both (tf2d_renderer (Fin 100) (Fin 50))
             (Fin 108) (Fin 255)); reflexivity.
  - split; reflexivity.
Defined.

End TransferFacts.

(** ** The ray/box intersection *)

Module IntersectFacts.

Import IntersectSpec.
Local Open Scope float_scope.

(** The code as a function of the three slab intervals. *)
Lemma instersectRayVolumeBounds_slabs ray bounds :
  let nx := slab_near (vx (lower bounds)) (vx (upper bounds)) (vx (origin ray))
                      (vx (direction ray)) in
  let fx := slab_far (vx (lower bounds)) (vx (upper bounds)) (vx (origin ray))
                     (vx (direction ray)) in
  let ny := slab_near (vy (lower bounds)) (vy (upper bounds)) (vy (origin ray))
                      (vy (direction ray)) in
  let fy := slab_far (vy (lower bounds)) (vy (upper bounds)) (vy (origin ray))
                     (vy (direction ray)) in
  let nz := slab_near (vz (lower bounds)) (vz (upper bounds)) (vz (origin ray))
                      (vz (direction ray)) in
  let fz := slab_far (vz (lower bounds)) (vz (upper bounds)) (vz (origin ray))
                     (vz (direction ray)) in
  render.instersectRayVolumeBounds ray bounds
  = if (nx >? fy) || (ny >? fx) then (false, ray)
    else if (fmax nx ny >? fz) || (nz >? fmin fx fy) then (false, ray)
    else (true, mkRay (origin ray) (direction ray)
                      (fmax (fmax nx ny) nz) (fmin (fmin fx fy) fz)).
Proof.
  cbv zeta. unfold render.instersectRayVolumeBounds, slab_near, slab_far, lowerUpper.
  cbv zeta. cbn [vx vy vz].
  destruct (Fin 1 / vx (direction ray) <? Fin 0),
           (Fin 1 / vy (direction ray) <? Fin 0),
           (Fin 1 / vz (direction ray) <? Fin 0); reflexivity.
Qed.

Lemma fleb_true_not_NaN x y : (x <=? y) = true -> x <> NaN /\ y <> NaN.
Proof. destruct x, y; simpl; try discriminate; split; discriminate. Qed.

(** Two numbers that are not in the order [y < x] are in the order
    [x <= y]. *)
Lemma not_gt_fleb x y : x <> NaN -> y <> NaN -> (x >? y) = false -> (x <=? y) = true.
Proof.
  unfold fgtb. destruct x as [p| | |], y as [q| | |]; try easy.
  intros _ _ H. apply fltb_Fin_false in H. now apply fleb_Fin.
Qed.

(** The intersection of two ordered intervals that overlap is ordered. *)
Lemma overlap_ordered n1 f1 n2 f2 :
  (n1 <=? f1) = true -> (n2 <=? f2) = true ->
  (n1 >? f2) = false -> (n2 >? f1) = false ->
  (fmax n1 n2 <=? fmin f1 f2) = true.
Proof.
  intros H1 H2 G1 G2.
  destruct (fleb_true_not_NaN _ _ H1) as [A1 B1].
  destruct (fleb_true_not_NaN _ _ H2) as [A2 B2].
  pose proof (not_gt_fleb _ _ A1 B2 G1) as C1.
  pose proof (not_gt_fleb _ _ A2 B1 G2) as C2.
  destruct (fmax_cases n1 n2) as [-> | ->], (fmin_cases f1 f2) as [-> | ->]; assumption.
Qed.

(** On a regular axis the slab interval is ordered (so neither end is
    NaN). *)
Lemma slab_ordered lo hi o d :
  regular_axis lo hi o d -> (slab_near lo hi o d <=? slab_far lo hi o d) = true.
Proof.
  intros (Hlo & Hhi & Ho & Hd & Hle & Hreg).
  destruct lo as [ql| | |], hi as [qh| | |], o as [qo| | |], d as [qd| | |]; try easy.
  apply fleb_Fin in Hle.
  unfold slab_near, slab_far. cbv zeta.
  destruct (Qeq_bool qd 0) eqn:E.
  - (* the direction component is zero: the inverse is +infinity *)
    apply Qeq_bool_iff in E.
    destruct Hreg as [Hz | [H1 H2]].
    { apply feqb_Fin_false in Hz. contradiction. }
    apply feqb_Fin_false in H1. apply feqb_Fin_false in H2.
    unfold fdiv. rewrite (proj2 (Qeq_bool_iff qd 0) E).
    change (1 ?= 0) with Gt. cbv iota.
    change (PInf <? Fin 0) with false. cbv iota. simpl negb. cbv iota.
    autorewrite with finarith. unfold fmul, inf_times.
    destruct (Qcompare_spec (ql - qo) 0) as [C1|C1|C1];
      destruct (Qcompare_spec (qh - qo) 0) as [C2|C2|C2];
      try reflexivity; exfalso; lra.
  - apply Qeq_bool_false_iff in E.
    rewrite (fdiv_Fin 1 qd E).
    assert (Hinv : (1 / qd) * qd == 1) by (field; exact E).
    set (inv := (1 / qd)%Q) in *.
    destruct (Fin inv <? Fin 0) eqn:S; fcmp; cbv iota; simpl negb; cbv iota;
      autorewrite with finarith; apply fleb_Fin; nra.
Qed.




End IntersectFacts.

(** ** Bisection *)

Module BisectionFacts.

Import Examples BisectionSpec.
Local Open Scope float_scope.

(** The loop with [n >= 1] iterations left and more than [n] units of fuel
    returns the midpoint of iteration [k], the first iteration that passes
    the early-exit test, or the [n]-th. *)
Lemma bisection_loop_returns a this ray isoValue n :
  forall fuel b tMiddle,
    (n < fuel)%nat -> (1 <= n)%nat -> (Z.of_nat n <= INT_MAX)%Z ->
    exists k,
      (1 <= k <= n)%nat
      /\ render.bisection_loop a this fuel ray isoValue (Z.of_nat n) (fst b) (snd b) tMiddle
         = Ret (midpoint (bracket a this ray isoValue (k - 1) b))
      /\ (forall j, (j < k - 1)%nat ->
                    close_enough a this ray isoValue (bracket a this ray isoValue j b) = false)
      /\ ((k < n)%nat ->
          close_enough a this ray isoValue (bracket a this ray isoValue (k - 1) b) = true).
Proof.
  induction n as [|n IH]; intros fuel b tMiddle Hfuel Hn Hmax; [lia|].
  destruct fuel as [|fuel]; [lia|].
  assert (INT_MAX = 2147483647)%Z by reflexivity.
  assert (INT_MIN = -2147483648)%Z by reflexivity.
  cbn [render.bisection_loop].
  replace (Z.of_nat (S n) >? 0)%Z with true by (symmetry; apply Z.gtb_lt; lia).
  rewrite int_sub_id by (unfold in_int; lia).
  replace (Z.of_nat (S n) - 1)%Z with (Z.of_nat n) by lia.
  change ((fst b + snd b) / Fin 2) with (midpoint b).
  change (render.sample a this (vadd (origin ray) (vscale (midpoint b) (direction ray))))
    with (sample_at a this ray (midpoint b)).
  change (fabs (sample_at a this ray (midpoint b) - isoValue) <? Fin 0.0001)
    with (close_enough a this ray isoValue b).
  destruct (close_enough a this ray isoValue b) eqn:Hclose.
  - exists 1%nat. repeat split; try lia; try (intros; lia). intros _. exact Hclose.
  - destruct n as [|n].
    + (* this was the last iteration *)
      exists 1%nat. destruct fuel as [|fuel]; [lia|].
      repeat split; try lia; try (intros; lia).
      destruct (sample_at a this ray (midpoint b) <? isoValue); reflexivity.
    + destruct (IH fuel (narrow a this ray isoValue b) (midpoint b))
        as (k & Hk & Hret & Hbefore & Hexit); try lia.
      exists (S k). split; [lia|].
      replace (S k - 1)%nat with (S (k - 1)) by lia. cbn [bracket].
      split; [|split].
      * rewrite <- Hret. unfold narrow.
        destruct (sample_at a this ray (midpoint b) <? isoValue); reflexivity.
      * intros [|j] Hj; [exact Hclose|]. cbn [bracket]. apply Hbefore. lia.
      * intros Hlt. apply Hexit. lia.
Qed.

(** C9.  With enough fuel for the 500 iterations and the final test,
    [bisectionAccuracy] returns, for every bracket, ray and iso-value: the
    result is the midpoint computed in iteration [k] (of the bracket after
    [k - 1] bisection steps), where no iteration before [k] passed the
    early-exit test [|sample(mid) - isoValue| < 1e-4], and [k] is either
    an iteration that passed it or the 500th. *)
Theorem C9_bisection_terminates_within_500_iterations a this fuel ray t0 t1 isoValue :
  (500 < fuel)%nat ->
  exists k,
    (1 <= k <= 500)%nat
    /\ render.bisectionAccuracy a this fuel ray t0 t1 isoValue
       = Ret (midpoint (bracket a this ray isoValue (k - 1) (t0, t1)))
    /\ (forall j, (j < k - 1)%nat ->
           close_enough a this ray isoValue (bracket a this ray isoValue j (t0, t1)) = false)
    /\ ((k < 500)%nat ->
        close_enough a this ray isoValue (bracket a this ray isoValue (k - 1) (t0, t1))
        = true).
Proof.
  intros Hfuel. unfold render.bisectionAccuracy.
  apply (bisection_loop_returns a this ray isoValue 500 fuel (t0, t1)); try lia.
  vm_compute. discriminate.
Qed.

(** On the ray along z the scalar is [25 * t]; the bracket [[0, 1.6]] and
    the iso-value 10 give the midpoint 0.8 and then 0.4, where the scalar
    is exactly 10. *)
Lemma C9_bisection_terminates_within_500_iterations_witness :
  exists k,
    (1 <= k <= 500)%nat
    /\ render.bisectionAccuracy a_example renderer_example 501 ray_along_z
         (Fin 0) (Fin 1.6) (Fin 10)
       = Ret (midpoint (bracket a_example renderer_example ray_along_z (Fin 10) (k - 1)
                                (Fin 0, Fin 1.6)))
    /\ (forall j, (j < k - 1)%nat ->
           close_enough a_example renderer_example ray_along_z (Fin 10)
             (bracket a_example renderer_example ray_along_z (Fin 10) j (Fin 0, Fin 1.6))
           = false)
    /\ ((k < 500)%nat ->
        close_enough a_example renderer_example ray_along_z (Fin 10)
          (bracket a_example renderer_example ray_along_z (Fin 10) (k - 1) (Fin 0, Fin 1.6))
        = true).
Proof.
  apply (C9_bisection_terminates_within_500_iterations a_example renderer_example 501
           ray_along_z (Fin 0) (Fin 1.6) (Fin 10)).
  exact (le_n 501).
Defined.

Lemma bisectionAccuracy_example :
  exists q, render.bisectionAccuracy a_example renderer_example 501 ray_along_z
              (Fin 0) (Fin 1.6) (Fin 10) = Ret (Fin q)
            /\ q == 0.4.
Proof. eexists. split; [vm_compute; reflexivity | reflexivity]. Qed.

(** With one unit of fuel less than the iterations need, the model of the
    loop reports that it ran out of fuel. *)
Lemma bisectionAccuracy_out_of_fuel :
  render.bisectionAccuracy a_example renderer_example 1 ray_along_z
    (Fin 0) (Fin 1.6) (Fin 10) = OutOfFuel.
Proof. reflexivity. Qed.

End BisectionFacts.

(** ** Maximum intensity projection: forward and backward scans *)

Module MipFacts.

Import Examples MarchSpec SamplerCompat.
Local Open Scope float_scope.

Lemma inject_nat_0 : inject_Z (Z.of_nat 0) == 0.
Proof. reflexivity. Qed.

Lemma inject_nat_S i : inject_Z (Z.of_nat (S i)) == inject_Z (Z.of_nat i) + 1.
Proof. rewrite Nat2Z.inj_succ, <- Z.add_1_r, inject_Z_plus. reflexivity. Qed.

Lemma inject_nat_nonneg i : 0 <= inject_Z (Z.of_nat i).
Proof. change 0 with (inject_Z 0). rewrite <- Zle_Qle. lia. Qed.

(** The forward loop makes exactly [j] passes when the first [j] values of
    [t] are within [tmax] and the next one is past it; it returns the
    running maximum over the positions of these passes. *)
Lemma mip_loop_unroll a this ray qs qmax increment :
  tmax ray = Fin qmax ->
  forall j fuel q pos m,
    (j < fuel)%nat ->
    (forall i, (i < j)%nat -> q + inject_Z (Z.of_nat i) * qs <= qmax) ->
    qmax < q + inject_Z (Z.of_nat j) * qs ->
    render.mip_loop a this fuel ray (Fin qs) increment (Fin q) pos m
    = Ret (running_max (map (render.sample a this) (positions_up j pos increment)) m).
Proof.
  intros Hmax. induction j as [|j IH]; intros fuel q pos m Hfuel Hin Hout;
    (destruct fuel as [|fuel]; [lia|]); cbn [render.mip_loop]; rewrite Hmax.
  - rewrite inject_nat_0 in Hout.
    rewrite (proj2 (fleb_Fin_false q qmax)) by lra. reflexivity.
  - assert (H0 : q <= qmax).
    { specialize (Hin 0%nat ltac:(lia)). rewrite inject_nat_0 in Hin. lra. }
    rewrite (proj2 (fleb_Fin q qmax) H0). cbv zeta. autorewrite with finarith.
    rewrite IH; [reflexivity | lia | |].
    + intros i Hi. specialize (Hin (S i) ltac:(lia)). rewrite inject_nat_S in Hin. lra.
    + rewrite inject_nat_S in Hout. lra.
Qed.

(** The backward loop, likewise. *)
Lemma mip_backward_loop_unroll a this ray qs qmin increment :
  tmin ray = Fin qmin ->
  forall j fuel q pos m,
    (j < fuel)%nat ->
    (forall i, (i < j)%nat -> qmin <= q - inject_Z (Z.of_nat i) * qs) ->
    q - inject_Z (Z.of_nat j) * qs < qmin ->
    render.mip_backward_loop a this fuel ray (Fin qs) increment (Fin q) pos m
    = Ret (running_max (map (render.sample a this) (positions_down j pos increment)) m).
Proof.
  intros Hmin. induction j as [|j IH]; intros fuel q pos m Hfuel Hin Hout;
    (destruct fuel as [|fuel]; [lia|]); cbn [render.mip_backward_loop];
    rewrite Hmin; unfold fgeb.
  - rewrite inject_nat_0 in Hout.
    rewrite (proj2 (fleb_Fin_false qmin q)) by lra. reflexivity.
  - assert (H0 : qmin <= q).
    { specialize (Hin 0%nat ltac:(lia)). rewrite inject_nat_0 in Hin. lra. }
    rewrite (proj2 (fleb_Fin qmin q) H0). cbv zeta. autorewrite with finarith.
    rewrite IH; [reflexivity | lia | |].
    + intros i Hi. specialize (Hin (S i) ltac:(lia)). rewrite inject_nat_S in Hin. lra.
    + rewrite inject_nat_S in Hout. lra.
Qed.

(** *** The running maximum *)

Lemma fleb_refl_finite x : finite x -> (x <=? x) = true.
Proof. destruct x; try easy. intros _. apply fleb_Fin. lra. Qed.

Lemma fleb_trans_finite x y z :
  finite x -> finite y -> finite z ->
  (x <=? y) = true -> (y <=? z) = true -> (x <=? z) = true.
Proof.
  destruct x, y, z; try easy. intros _ _ _ H1 H2. fcmp. apply fleb_Fin. lra.
Qed.

Lemma fleb_antisym_finite x y :
  finite x -> finite y -> (x <=? y) = true -> (y <=? x) = true -> x =f= y.
Proof.
  destruct x, y; try easy. intros _ _ H1 H2. fcmp. simpl. lra.
Qed.

Lemma fmax_ge_finite v m :
  finite v -> finite m -> (m <=? fmax v m) = true /\ (v <=? fmax v m) = true.
Proof.
  destruct v as [p| | |], m as [q| | |]; try easy. intros _ _. unfold fmax.
  destruct (Fin p <? Fin q) eqn:E; fcmp; split; apply fleb_Fin; lra.
Qed.

(** The running maximum is finite, is an upper bound of the start value and
    of every sample, and is one of them. *)
Lemma running_max_spec vals :
  forall m0,
    Forall finite vals -> finite m0 ->
    finite (running_max vals m0)
    /\ (m0 <=? running_max vals m0) = true
    /\ (forall v, In v vals -> (v <=? running_max vals m0) = true)
    /\ (running_max vals m0 = m0 \/ In (running_max vals m0) vals).
Proof.
  induction vals as [|v vals IH]; intros m0 Hall Hm.
  - simpl. repeat split; auto. now apply fleb_refl_finite.
  - inversion Hall as [|? ? Hv Hall']; subst.
    assert (Hf : finite (fmax v m0)) by auto with fin.
    destruct (IH (fmax v m0) Hall' Hf) as (F & G & U & M).
    destruct (fmax_ge_finite v m0 Hv Hm) as [Gm Gv].
    unfold running_max in *. simpl. repeat split.
    + exact F.
    + eapply fleb_trans_finite; [| | | exact Gm | exact G]; auto.
    + intros w [<- | Hw]; [|now apply U].
      eapply fleb_trans_finite; [| | | exact Gv | exact G]; auto.
    + destruct M as [M | M]; [|right; now right].
      rewrite M. destruct (fmax_cases v m0) as [-> | ->]; [right; now left | now left].
Qed.

(** Two lists that hold the same values, up to equality of numbers, have
    the same running maximum. *)
Lemma running_max_same_values vals1 vals2 m0 :
  Forall finite vals1 -> Forall finite vals2 -> finite m0 ->
  (forall v, In v vals1 -> exists w, In w vals2 /\ v =f= w) ->
  (forall w, In w vals2 -> exists v, In v vals1 /\ w =f= v) ->
  running_max vals1 m0 =f= running_max vals2 m0.
Proof.
  intros F1 F2 Hm H12 H21.
  destruct (running_max_spec vals1 m0 F1 Hm) as (A1 & B1 & C1 & D1).
  destruct (running_max_spec vals2 m0 F2 Hm) as (A2 & B2 & C2 & D2).
  apply fleb_antisym_finite; auto.
  - destruct D1 as [-> | D1]; [exact B2|].
    destruct (H12 _ D1) as (w & Hw & E). rewrite E. now apply C2.
  - destruct D2 as [-> | D2]; [exact B1|].
    destruct (H21 _ D2) as (v & Hv & E). rewrite E. now apply C1.
Qed.

(** *** The positions of the two scans *)

Lemma positions_up_length j : forall p inc, length (positions_up j p inc) = j.
Proof. induction j; intros; simpl; auto. Qed.

Lemma positions_down_length j : forall p inc, length (positions_down j p inc) = j.
Proof. induction j; intros; simpl; auto. Qed.

Lemma vadd_no_step p inc :
  finite3 p -> finite3 inc -> veq p (vadd p (vscale (of_nat 0) inc)).
Proof.
  intros Hp Hi.
  destruct (finite3_inv _ Hp) as (a1 & a2 & a3 & A1 & A2 & A3).
  destruct (finite3_inv _ Hi) as (i1 & i2 & i3 & I1 & I2 & I3).
  unfold veq, vadd, vsub, vscale, of_nat, of_int. cbn [vx vy vz].
  rewrite A1, A2, A3, I1, I2, I3. autorewrite with finarith.
  repeat split; cbn [feq]; rewrite inject_nat_0; ring.
Qed.

Lemma vadd_one_more_step p inc k :
  finite3 p -> finite3 inc ->
  veq (vadd (vadd p inc) (vscale (of_nat k) inc)) (vadd p (vscale (of_nat (S k)) inc)).
Proof.
  intros Hp Hi.
  destruct (finite3_inv _ Hp) as (a1 & a2 & a3 & A1 & A2 & A3).
  destruct (finite3_inv _ Hi) as (i1 & i2 & i3 & I1 & I2 & I3).
  unfold veq, vadd, vsub, vscale, of_nat, of_int. cbn [vx vy vz].
  rewrite A1, A2, A3, I1, I2, I3. autorewrite with finarith.
  repeat split; cbn [feq]; rewrite inject_nat_S; ring.
Qed.

Lemma vsub_no_step p inc :
  finite3 p -> finite3 inc -> veq p (vsub p (vscale (of_nat 0) inc)).
Proof.
  intros Hp Hi.
  destruct (finite3_inv _ Hp) as (a1 & a2 & a3 & A1 & A2 & A3).
  destruct (finite3_inv _ Hi) as (i1 & i2 & i3 & I1 & I2 & I3).
  unfold veq, vadd, vsub, vscale, of_nat, of_int. cbn [vx vy vz].
  rewrite A1, A2, A3, I1, I2, I3. autorewrite with finarith.
  repeat split; cbn [feq]; rewrite inject_nat_0; ring.
Qed.

Lemma vsub_one_more_step p inc k :
  finite3 p -> finite3 inc ->
  veq (vsub (vsub p inc) (vscale (of_nat k) inc)) (vsub p (vscale (of_nat (S k)) inc)).
Proof.
  intros Hp Hi.
  destruct (finite3_inv _ Hp) as (a1 & a2 & a3 & A1 & A2 & A3).
  destruct (finite3_inv _ Hi) as (i1 & i2 & i3 & I1 & I2 & I3).
  unfold veq, vadd, vsub, vscale, of_nat, of_int. cbn [vx vy vz].
  rewrite A1, A2, A3, I1, I2, I3. autorewrite with finarith.
  repeat split; cbn [feq]; rewrite inject_nat_S; ring.
Qed.

(** Pass [k] of the forward scan samples at [p + k * increment]. *)
Lemma positions_up_nth inc j :
  finite3 inc ->
  forall p k, finite3 p -> (k < j)%nat ->
    exists pk, nth_error (positions_up j p inc) k = Some pk
               /\ veq pk (vadd p (vscale (of_nat k) inc)).
Proof.
  intros Hinc. induction j as [|j IH]; intros p k Hp Hk; [lia|].
  destruct k as [|k]; simpl.
  - exists p. split; [reflexivity | now apply vadd_no_step].
  - destruct (IH (vadd p inc) k) as (pk & E & V); [now apply finite3_vadd | lia |].
    exists pk. split; [exact E|].
    rewrite V. now apply vadd_one_more_step.
Qed.

(** Pass [k] of the backward scan samples at [p - k * increment]. *)
Lemma positions_down_nth inc j :
  finite3 inc ->
  forall p k, finite3 p -> (k < j)%nat ->
    exists pk, nth_error (positions_down j p inc) k = Some pk
               /\ veq pk (vsub p (vscale (of_nat k) inc)).
Proof.
  intros Hinc. induction j as [|j IH]; intros p k Hp Hk; [lia|].
  destruct k as [|k]; simpl.
  - exists p. split; [reflexivity | now apply vsub_no_step].
  - destruct (IH (vsub p inc) k) as (pk & E & V); [now apply finite3_vsub | lia |].
    exists pk. split; [exact E|].
    rewrite V. now apply vsub_one_more_step.
Qed.

(** When the last position of the forward scan is the first of the backward
    scan, pass [k] of the one is pass [n - k] of the other. *)
Lemma up_is_down p pmax inc n k :
  finite3 p -> finite3 pmax -> finite3 inc -> (k <= n)%nat ->
  veq pmax (vadd p (vscale (of_nat n) inc)) ->
  veq (vsub pmax (vscale (of_nat (n - k)) inc)) (vadd p (vscale (of_nat k) inc)).
Proof.
  intros Hp Hm Hi Hk (H1 & H2 & H3).
  destruct (finite3_inv _ Hp) as (a1 & a2 & a3 & A1 & A2 & A3).
  destruct (finite3_inv _ Hm) as (m1 & m2 & m3 & M1 & M2 & M3).
  destruct (finite3_inv _ Hi) as (i1 & i2 & i3 & I1 & I2 & I3).
  unfold veq, vadd, vsub, vscale, of_nat, of_int in *. cbn [vx vy vz] in *.
  rewrite A1, A2, A3, I1, I2, I3, M1, M2, M3 in *.
  autorewrite with finarith in *. cbn [feq] in *.
  assert (N : inject_Z (Z.of_nat (n - k))
              == inject_Z (Z.of_nat n) - inject_Z (Z.of_nat k)).
  { rewrite Nat2Z.inj_sub by lia. unfold Z.sub. rewrite inject_Z_plus, inject_Z_opp.
    reflexivity. }
  repeat split; rewrite N; [rewrite H1 | rewrite H2 | rewrite H3]; ring.
Qed.

Lemma positions_finite_up inc j :
  finite3 inc -> forall p, finite3 p -> Forall finite3 (positions_up j p inc).
Proof.
  intros Hinc. induction j as [|j IH]; intros p Hp; simpl; constructor; auto.
  apply IH. now apply finite3_vadd.
Qed.

Lemma positions_finite_down inc j :
  finite3 inc -> forall p, finite3 p -> Forall finite3 (positions_down j p inc).
Proof.
  intros Hinc. induction j as [|j IH]; intros p Hp; simpl; constructor; auto.
  apply IH. now apply finite3_vsub.
Qed.

(** The two scans sample the same positions, up to equality of numbers. *)
Lemma same_positions p pmax inc n :
  finite3 p -> finite3 pmax -> finite3 inc ->
  veq pmax (vadd p (vscale (of_nat n) inc)) ->
  (forall u, In u (positions_up (S n) p inc) ->
             exists w, In w (positions_down (S n) pmax inc) /\ veq u w)
  /\ (forall w, In w (positions_down (S n) pmax inc) ->
                exists u, In u (positions_up (S n) p inc) /\ veq w u).
Proof.
  intros Hp Hm Hinc Hend. split.
  - intros u Hu. apply In_nth_error in Hu. destruct Hu as (k & Ek).
    assert (Hk : (k < S n)%nat).
    { rewrite <- (positions_up_length (S n) p inc). apply nth_error_Some. congruence. }
    destruct (positions_up_nth inc (S n) Hinc p k Hp Hk) as (u' & Eu & Vu).
    assert (u' = u) by congruence. subst u'.
    destruct (positions_down_nth inc (S n) Hinc pmax (n - k) Hm ltac:(lia))
      as (w & Ew & Vw).
    exists w. split; [eapply nth_error_In; eassumption|].
    rewrite Vu, Vw. symmetry. apply up_is_down; auto. lia.
  - intros w Hw. apply In_nth_error in Hw. destruct Hw as (k & Ek).
    assert (Hk : (k < S n)%nat).
    { rewrite <- (positions_down_length (S n) pmax inc). apply nth_error_Some. congruence. }
    destruct (positions_down_nth inc (S n) Hinc pmax k Hm Hk) as (w' & Ew & Vw).
    assert (w' = w) by congruence. subst w'.
    destruct (positions_up_nth inc (S n) Hinc p (n - k) Hp ltac:(lia)) as (u & Eu & Vu).
    exists u. split; [eapply nth_error_In; eassumption|].
    rewrite Vu, Vw. replace k with (n - (n - k))%nat at 1 by lia.
    apply up_is_down; auto. lia.
Qed.

(** With an interval of [n] whole steps, the position at [tmax] is the
    position at [tmin] moved by [n] increments. *)
Lemma end_position ray sampleStep n :
  finite_ray ray -> finite sampleStep -> whole_steps ray sampleStep n ->
  veq (vadd (origin ray) (vscale (tmax ray) (direction ray)))
      (vadd (vadd (origin ray) (vscale (tmin ray) (direction ray)))
            (vscale (of_nat n) (vscale sampleStep (direction ray)))).
Proof.
  intros (Ho & Hd & Hmin & Hmax) Hs Hw. unfold whole_steps in Hw.
  destruct (finite3_inv _ Ho) as (o1 & o2 & o3 & O1 & O2 & O3).
  destruct (finite3_inv _ Hd) as (d1 & d2 & d3 & D1 & D2 & D3).
  destruct (finite_inv _ Hmin) as (qt & Et), (finite_inv _ Hmax) as (qm & Em),
    (finite_inv _ Hs) as (qs & Es).
  unfold veq, vadd, vscale, of_nat, of_int in *. cbn [vx vy vz].
  rewrite O1, O2, O3, D1, D2, D3, Et, Em, Es in *.
  autorewrite with finarith in *. cbn [feq] in *.
  repeat split; rewrite Hw; ring.
Qed.

Lemma sampled_values_finite a this ps :
  finite a -> Forall finite3 ps -> Forall finite (map (render.sample a this) ps).
Proof.
  intros Ha H. apply Forall_forall. intros v Hv. apply in_map_iff in Hv.
  destruct Hv as (p & <- & Hp). apply sample_finite; auto.
  rewrite Forall_forall in H. auto.
Qed.




End MipFacts.

(** ** Compositing *)

Module CompositeFacts.

Import Examples MarchSpec CompositeSpec TransferFacts SamplerCompat.
Local Open Scope float_scope.

(** *** The loop that steps backward from [tmax] to [tmin] *)

Section DownLoop.

Variable body : vec3 -> vec3 -> outcome vec3.

(** A property of the colour that every pass keeps holds of the result. *)
Lemma down_loop_invariant (P : vec3 -> Prop) ray sampleStep increment :
  (forall pos color color', P color -> body pos color = Ret color' -> P color') ->
  forall fuel t pos color result,
    P color ->
    down_loop body fuel ray sampleStep increment t pos color = Ret result -> P result.
Proof.
  intros Hbody. induction fuel as [|fuel IH]; intros t pos color result HP; simpl;
    [discriminate|].
  destruct (t >=? tmin ray).
  - destruct (body pos color) as [color'| |] eqn:E; try discriminate.
    apply IH. eapply Hbody; eassumption.
  - intros [= <-]. exact HP.
Qed.

Hypothesis body_has_no_loop : forall pos color, body pos color <> OutOfFuel.

(** With [t - tmin] below [k] steps, [k + 1] units of fuel are enough. *)
Lemma down_loop_fuel ray qs qmin increment :
  tmin ray = Fin qmin -> 0 < qs ->
  forall k fuel q pos color,
    (k < fuel)%nat -> q - qmin < inject_Z (Z.of_nat k) * qs ->
    down_loop body fuel ray (Fin qs) increment (Fin q) pos color <> OutOfFuel.
Proof.
  intros Hmin Hqs. induction k as [|k IH]; intros fuel q pos color Hfuel Hq;
    (destruct fuel as [|fuel]; [lia|]); cbn [down_loop]; rewrite Hmin; unfold fgeb.
  - rewrite MipFacts.inject_nat_0 in Hq.
    rewrite (proj2 (fleb_Fin_false qmin q)) by lra. discriminate.
  - destruct (Fin qmin <=? Fin q); [|discriminate].
    destruct (body pos color) as [color'| |] eqn:E.
    + autorewrite with finarith. apply IH; [lia|].
      rewrite MipFacts.inject_nat_S in Hq. lra.
    + now apply body_has_no_loop in E.
    + discriminate.
Qed.

Lemma down_loop_fuel_from_tmax ray qs qmin qmax increment k fuel pos color :
  tmin ray = Fin qmin -> tmax ray = Fin qmax -> 0 < qs ->
  qmax - qmin < inject_Z (Z.of_nat k) * qs -> (k < fuel)%nat ->
  down_loop body fuel ray (Fin qs) increment (tmax ray) pos color <> OutOfFuel.
Proof.
  intros Emin Emax Hqs Hk Hfuel. rewrite Emax.
  now apply (down_loop_fuel ray qs qmin increment Emin Hqs k).
Qed.

End DownLoop.

(** Every distance is below some whole number of positive steps. *)
Lemma whole_steps_above x qs :
  0 < qs -> exists k, x < inject_Z (Z.of_nat k) * qs.
Proof.
  intros Hqs. exists (Z.to_nat (Qceiling (x / qs) + 1)).
  pose proof (Qle_ceiling (x / qs)) as Hc.
  assert (Hx : x == (x / qs) * qs) by (field; lra).
  destruct (Z.le_gt_cases 0 (Qceiling (x / qs) + 1)) as [Hpos | Hneg].
  - rewrite Z2Nat.id by exact Hpos. rewrite inject_Z_plus.
    change (inject_Z 1) with 1. set (c := inject_Z (Qceiling (x / qs))) in *.
    set (d := (x / qs)%Q) in *. nra.
  - assert (Hz : Z.to_nat (Qceiling (x / qs) + 1) = 0%nat) by lia.
    rewrite Hz, MipFacts.inject_nat_0.
    assert (Hlt : inject_Z (Qceiling (x / qs)) < 0).
    { change 0 with (inject_Z 0). rewrite <- Zlt_Qlt. lia. }
    set (c := inject_Z (Qceiling (x / qs))) in *. set (d := (x / qs)%Q) in *. nra.
Qed.

(** The three loops of the source are this loop with their bodies. *)
Lemma composite_loop_down a libm this ray sampleStep increment :
  forall fuel t pos color,
    render.composite_loop a libm this fuel ray sampleStep increment t pos color
    = down_loop (composite_body a libm this ray) fuel ray sampleStep increment t pos color.
Proof.
  induction fuel as [|fuel IH]; intros t pos color; [reflexivity|].
  cbn [render.composite_loop down_loop]. destruct (t >=? tmin ray); [|reflexivity].
  unfold composite_body.
  destruct (render.getTFValue this (render.sample a this pos)); [|reflexivity].
  cbv zeta. apply IH.
Qed.

Lemma tf2d_loop_down a libm this ray sampleStep increment :
  forall fuel t pos color,
    render.tf2d_loop a libm this fuel ray sampleStep increment t pos color
    = down_loop (tf2d_body a libm this ray) fuel ray sampleStep increment t pos color.
Proof.
  induction fuel as [|fuel IH]; intros t pos color; [reflexivity|].
  cbn [render.tf2d_loop down_loop]. destruct (t >=? tmin ray); [|reflexivity].
  unfold tf2d_body. cbv zeta. apply IH.
Qed.

Lemma tf2dv2_loop_down a this ray sampleStep increment :
  forall fuel t pos color,
    render.tf2dv2_loop a this fuel ray sampleStep increment t pos color
    = down_loop (tf2dv2_body a this) fuel ray sampleStep increment t pos color.
Proof.
  induction fuel as [|fuel IH]; intros t pos color; [reflexivity|].
  cbn [render.tf2dv2_loop down_loop]. destruct (t >=? tmin ray); [|reflexivity].
  unfold tf2dv2_body. cbv zeta. apply IH.
Qed.

(** *** Values in the unit interval *)

Lemma unit_range_inv x : unit_range x -> exists q, x = Fin q /\ 0 <= q <= 1.
Proof.
  intros [H0 H1]. destruct x as [q| | |]; try discriminate.
  fcmp. exists q. split; [reflexivity | lra].
Qed.

Lemma unit_range_Fin q : 0 <= q <= 1 -> unit_range (Fin q).
Proof. intros H. split; apply fleb_Fin; lra. Qed.

Lemma unit_range_mul x y : unit_range x -> unit_range y -> unit_range (x * y).
Proof.
  intros Hx Hy.
  destruct (unit_range_inv x Hx) as (p & -> & Hp), (unit_range_inv y Hy) as (q & -> & Hq).
  autorewrite with finarith. apply unit_range_Fin. nra.
Qed.

(** The "over" blend of two values of the unit interval with an opacity
    of the unit interval stays in the unit interval. *)
Lemma unit_range_blend alpha c color :
  unit_range alpha -> unit_range c -> unit_range color ->
  unit_range (alpha * c + (Fin 1 - alpha) * color).
Proof.
  intros Ha Hc Hcol.
  destruct (unit_range_inv _ Ha) as (qa & -> & A), (unit_range_inv _ Hc) as (qc & -> & C),
    (unit_range_inv _ Hcol) as (qk & -> & K).
  autorewrite with finarith. apply unit_range_Fin. nra.
Qed.

Lemma unit_vec3_blend alpha c color :
  unit_range alpha -> unit_vec3 c -> unit_vec3 color ->
  unit_vec3 (render.blend alpha c color).
Proof.
  intros Ha (C1 & C2 & C3) (K1 & K2 & K3). unfold render.blend, unit_vec3, vadd, vscale.
  cbn [vx vy vz]. repeat split; apply unit_range_blend; assumption.
Qed.

Lemma unit_vec3_zero : unit_vec3 (vec3_all (Fin 0)).
Proof. repeat split. Qed.

Lemma unit_rgb_vec3 c : unit_rgb c -> unit_vec3 (vec3_of_vec4 c).
Proof. intros H. exact H. Qed.

(** Inside the triangle of a finite classifier the tent opacity lies in
    the unit interval, for every magnitude that is a number. *)
Lemma linearOpacity_unit_in_triangle qc qr i m :
  m <> NaN ->
  render.inTriangle (Fin qc - Fin qr) (Fin qc) (Fin qc + Fin qr) i m = true ->
  unit_range (render.linearOpacity (Fin qc) (Fin qr) i m).
Proof.
  intros Hm E.
  destruct (inTriangle_base _ _ _ _ E) as (qi & -> & Hi & Hm0).
  assert (Hqr : 0 < qr) by lra.
  destruct m as [qm| | |]; try easy.
  - destruct (inTriangle_inside _ _ _ _ E) as (_ & Hqm & Habs).
    destruct (linearOpacity_inside qc qr qi qm Hqr Hqm Habs) as (o & -> & Ho).
    apply unit_range_Fin. lra.
  - rewrite (linearOpacity_PInf qc qr qi Hqr). split; reflexivity.
Qed.

Lemma getTF2DOpacity_unit this i m :
  finite (TF2DIntensity (m_config this)) -> finite (TF2DRadius (m_config this)) ->
  m <> NaN -> unit_range (render.getTF2DOpacity this i m).
Proof.
  intros Hc Hr Hm. unfold render.getTF2DOpacity.
  destruct (finite_inv _ Hc) as (qc & ->), (finite_inv _ Hr) as (qr & ->).
  destruct (render.inTriangle _ _ _ _ _) eqn:E.
  - now apply linearOpacity_unit_in_triangle.
  - split; reflexivity.
Qed.

Lemma getTF2DV2_unit this i m :
  unit_rgba (TF2DV2Color_0 (m_config this)) -> unit_rgba (TF2DV2Color_1 (m_config this)) ->
  finite (TF2DV2Intensity_0 (m_config this)) -> finite (TF2DV2Radius_0 (m_config this)) ->
  finite (TF2DV2Intensity_1 (m_config this)) -> finite (TF2DV2Radius_1 (m_config this)) ->
  m <> NaN ->
  unit_range (render.getTF2DV2Opacity this i m)
  /\ unit_rgba (render.getTF2DV2Color this i m).
Proof.
  intros U0 U1 Hc0 Hr0 Hc1 Hr1 Hm.
  destruct (getTF2DV2_resolution_branch_is_dead this i m) as [EO EC].
  cbv zeta in EO, EC. rewrite EO, EC. clear EO EC.
  destruct (finite_inv _ Hc0) as (qc0 & ->), (finite_inv _ Hr0) as (qr0 & ->).
  destruct (finite_inv _ Hc1) as (qc1 & ->), (finite_inv _ Hr1) as (qr1 & ->).
  destruct (render.inTriangle (Fin qc0 - Fin qr0) _ _ _ _) eqn:E0.
  - split; [now apply linearOpacity_unit_in_triangle | exact U0].
  - destruct (render.inTriangle (Fin qc1 - Fin qr1) _ _ _ _) eqn:E1.
    + split; [now apply linearOpacity_unit_in_triangle | exact U1].
    + repeat split.
Qed.

(** *** The bodies keep the colour in the unit interval *)

Lemma composite_body_unit a libm this ray pos color color' :
  volumeShading (m_config this) = false ->
  Forall unit_rgba (tfColorMap (m_config this)) ->
  unit_vec3 color ->
  composite_body a libm this ray pos color = Ret color' -> unit_vec3 color'.
Proof.
  intros Hs Htab Hc. unfold composite_body. rewrite Hs.
  destruct (render.getTFValue this (render.sample a this pos)) as [tf|] eqn:E;
    [|discriminate].
  intros [= <-].
  assert (Hin : In tf (tfColorMap (m_config this))).
  { unfold render.getTFValue in E.
    destruct (float_to_size_t _); [|discriminate]. eapply nth_error_In; eassumption. }
  rewrite Forall_forall in Htab. destruct (Htab tf Hin) as [Hrgb Hw].
  apply unit_vec3_blend; auto.
Qed.

Lemma tf2d_body_unit a libm this ray pos color color' :
  volumeShading (m_config this) = false ->
  unit_rgba (TF2DColor (m_config this)) ->
  finite (TF2DIntensity (m_config this)) -> finite (TF2DRadius (m_config this)) ->
  magnitudes_are_numbers this ->
  unit_vec3 color ->
  tf2d_body a libm this ray pos color = Ret color' -> unit_vec3 color'.
Proof.
  intros Hs [Hrgb Hw] Hc Hr Hm Hcol. unfold tf2d_body. rewrite Hs. cbv zeta.
  intros [= <-]. apply unit_vec3_blend; auto.
  apply unit_range_mul; auto. apply getTF2DOpacity_unit; auto.
Qed.

Lemma tf2dv2_body_unit a this pos color color' :
  unit_rgba (TF2DV2Color_0 (m_config this)) -> unit_rgba (TF2DV2Color_1 (m_config this)) ->
  finite (TF2DV2Intensity_0 (m_config this)) -> finite (TF2DV2Radius_0 (m_config this)) ->
  finite (TF2DV2Intensity_1 (m_config this)) -> finite (TF2DV2Radius_1 (m_config this)) ->
  magnitudes_are_numbers this ->
  unit_vec3 color ->
  tf2dv2_body a this pos color = Ret color' -> unit_vec3 color'.
Proof.
  intros U0 U1 Hc0 Hr0 Hc1 Hr1 Hm Hcol. unfold tf2dv2_body. cbv zeta.
  intros [= <-].
  destruct (getTF2DV2_unit this (render.sample a this pos)
              (magnitude (getGradientVoxel (m_pGradientVolume this) pos))
              U0 U1 Hc0 Hr0 Hc1 Hr1 (Hm pos)) as [HO [Hrgb Hw]].
  apply unit_vec3_blend; auto. apply unit_range_mul; auto.
Qed.

(** A loop whose body always returns a colour returns a colour, or runs
    out of fuel. *)
Lemma down_loop_defined body ray sampleStep increment :
  (forall pos color, exists color', body pos color = Ret color') ->
  forall fuel t pos color,
    down_loop body fuel ray sampleStep increment t pos color <> Undefined.
Proof.
  intros Hbody. induction fuel as [|fuel IH]; intros t pos color; simpl; [discriminate|].
  destruct (t >=? tmin ray); [|discriminate].
  destruct (Hbody pos color) as (color' & ->). apply IH.
Qed.

Lemma composite_body_has_no_loop a libm this ray pos color :
  composite_body a libm this ray pos color <> OutOfFuel.
Proof.
  unfold composite_body. destruct (render.getTFValue _ _); discriminate.
Qed.

Lemma tf2d_body_returns a libm this ray pos color :
  exists color', tf2d_body a libm this ray pos color = Ret color'.
Proof. unfold tf2d_body. cbv zeta. eexists. reflexivity. Qed.

Lemma tf2dv2_body_returns a this pos color :
  exists color', tf2dv2_body a this pos color = Ret color'.
Proof. unfold tf2dv2_body. cbv zeta. eexists. reflexivity. Qed.

(** *** The three compositing functions *)

Lemma backToFrontComposite_result a libm this ray qmin qmax qs k fuel :
  tmin ray = Fin qmin -> tmax ray = Fin qmax -> 0 < qs ->
  qmax - qmin < inject_Z (Z.of_nat k) * qs -> (k < fuel)%nat ->
  render.backToFrontComposite a libm this fuel ray (Fin qs) <> OutOfFuel
  /\ (forall c, render.backToFrontComposite a libm this fuel ray (Fin qs) = Ret c ->
        cw c = Fin 1
        /\ (volumeShading (m_config this) = false ->
            Forall unit_rgba (tfColorMap (m_config this)) -> unit_rgb c)).
Proof.
  intros Emin Emax Hqs Hk Hfuel. unfold render.backToFrontComposite.
  rewrite composite_loop_down.
  pose proof (down_loop_fuel_from_tmax (composite_body a libm this ray)
                (composite_body_has_no_loop a libm this ray) ray qs qmin qmax
                (vscale (Fin qs) (direction ray)) k fuel
                (vadd (origin ray) (vscale (tmax ray) (direction ray)))
                (vec3_all (Fin 0)) Emin Emax Hqs Hk Hfuel) as Hterm.
  destruct (down_loop _ _ _ _ _ _ _ _) as [color| |] eqn:E; try contradiction.
  - split; [discriminate|]. intros c [= <-]. split; [reflexivity|].
    intros Hs Htab.
    apply (down_loop_invariant (composite_body a libm this ray) unit_vec3) in E; auto.
    + intros pos col col' Hcol Hb. eapply composite_body_unit; eassumption.
    + apply unit_vec3_zero.
  - split; [discriminate|]. intros c. discriminate.
Qed.

Lemma traceRayTF2D_result a libm this ray qmin qmax qs k fuel :
  tmin ray = Fin qmin -> tmax ray = Fin qmax -> 0 < qs ->
  qmax - qmin < inject_Z (Z.of_nat k) * qs -> (k < fuel)%nat ->
  exists c, render.traceRayTF2D a libm this fuel ray (Fin qs) = Ret c
            /\ cw c = Fin 1
            /\ (volumeShading (m_config this) = false ->
                unit_rgba (TF2DColor (m_config this)) ->
                finite (TF2DIntensity (m_config this)) ->
                finite (TF2DRadius (m_config this)) ->
                magnitudes_are_numbers this -> unit_rgb c).
Proof.
  intros Emin Emax Hqs Hk Hfuel. unfold render.traceRayTF2D.
  rewrite tf2d_loop_down.
  assert (Hno : forall pos color, tf2d_body a libm this ray pos color <> OutOfFuel).
  { intros pos color. destruct (tf2d_body_returns a libm this ray pos color) as (c & ->).
    discriminate. }
  pose proof (down_loop_fuel_from_tmax (tf2d_body a libm this ray) Hno ray qs qmin qmax
                (vscale (Fin qs) (direction ray)) k fuel
                (vadd (origin ray) (vscale (tmax ray) (direction ray)))
                (vec3_all (Fin 0)) Emin Emax Hqs Hk Hfuel) as Hterm.
  pose proof (down_loop_defined (tf2d_body a libm this ray) ray (Fin qs)
                (vscale (Fin qs) (direction ray)) (tf2d_body_returns a libm this ray)
                fuel (tmax ray) (vadd (origin ray) (vscale (tmax ray) (direction ray)))
                (vec3_all (Fin 0))) as Hdef.
  destruct (down_loop _ _ _ _ _ _ _ _) as [color| |] eqn:E; try contradiction.
  eexists. split; [reflexivity|]. split; [reflexivity|].
  intros Hs Hcol Hc Hr Hm.
  apply (down_loop_invariant (tf2d_body a libm this ray) unit_vec3) in E; auto.
  - intros pos col col' Hu Hb. eapply tf2d_body_unit; eassumption.
  - apply unit_vec3_zero.
Qed.

Lemma traceRayTF2DV2_result a this ray qmin qmax qs k fuel :
  tmin ray = Fin qmin -> tmax ray = Fin qmax -> 0 < qs ->
  qmax - qmin < inject_Z (Z.of_nat k) * qs -> (k < fuel)%nat ->
  exists c, render.traceRayTF2DV2 a this fuel ray (Fin qs) = Ret c
            /\ cw c = Fin 1
            /\ (unit_rgba (TF2DV2Color_0 (m_config this)) ->
                unit_rgba (TF2DV2Color_1 (m_config this)) ->
                finite (TF2DV2Intensity_0 (m_config this)) ->
                finite (TF2DV2Radius_0 (m_config this)) ->
                finite (TF2DV2Intensity_1 (m_config this)) ->
                finite (TF2DV2Radius_1 (m_config this)) ->
                magnitudes_are_numbers this -> unit_rgb c).
Proof.
  intros Emin Emax Hqs Hk Hfuel. unfold render.traceRayTF2DV2.
  rewrite tf2dv2_loop_down.
  assert (Hno : forall pos color, tf2dv2_body a this pos color <> OutOfFuel).
  { intros pos color. destruct (tf2dv2_body_returns a this pos color) as (c & ->).
    discriminate. }
  pose proof (down_loop_fuel_from_tmax (tf2dv2_body a this) Hno ray qs qmin qmax
                (vscale (Fin qs) (direction ray)) k fuel
                (vadd (origin ray) (vscale (tmax ray) (direction ray)))
                (vec3_all (Fin 0)) Emin Emax Hqs Hk Hfuel) as Hterm.
  pose proof (down_loop_defined (tf2dv2_body a this) ray (Fin qs)
                (vscale (Fin qs) (direction ray)) (tf2dv2_body_returns a this)
                fuel (tmax ray) (vadd (origin ray) (vscale (tmax ray) (direction ray)))
                (vec3_all (Fin 0))) as Hdef.
  destruct (down_loop _ _ _ _ _ _ _ _) as [color| |] eqn:E; try contradiction.
  eexists. split; [reflexivity|]. split; [reflexivity|].
  intros U0 U1 Hc0 Hr0 Hc1 Hr1 Hm.
  apply (down_loop_invariant (tf2dv2_body a this) unit_vec3) in E; auto.
  - intros pos col col' Hu Hb. eapply tf2dv2_body_unit; eassumption.
  - apply unit_vec3_zero.
Qed.

(** *** The three compositing algorithms *)

(** With every lookup defined, the 1D compositing returns. *)
Lemma backToFrontComposite_returns a libm this ray qmin qmax qs k fuel :
  tmin ray = Fin qmin -> tmax ray = Fin qmax -> 0 < qs ->
  qmax - qmin < inject_Z (Z.of_nat k) * qs -> (k < fuel)%nat ->
  lookups_defined a this ->
  exists c, render.backToFrontComposite a libm this fuel ray (Fin qs) = Ret c
            /\ cw c = Fin 1
            /\ (volumeShading (m_config this) = false ->
                Forall unit_rgba (tfColorMap (m_config this)) -> unit_rgb c).
Proof.
  intros Emin Emax Hqs Hk Hfuel Hdef.
  destruct (backToFrontComposite_result a libm this ray qmin qmax qs k fuel
              Emin Emax Hqs Hk Hfuel) as (Hno & Hres).
  assert (Hbody : forall pos color,
             exists color', composite_body a libm this ray pos color = Ret color').
  { intros pos color. unfold composite_body. specialize (Hdef pos).
    destruct (render.getTFValue this (render.sample a this pos)); [|contradiction].
    eexists. reflexivity. }
  pose proof (down_loop_defined (composite_body a libm this ray) ray (Fin qs)
                (vscale (Fin qs) (direction ray)) Hbody fuel (tmax ray)
                (vadd (origin ray) (vscale (tmax ray) (direction ray)))
                (vec3_all (Fin 0))) as Hu.
  revert Hno Hres Hu. unfold render.backToFrontComposite.
  rewrite composite_loop_down.
  destruct (down_loop _ _ _ _ _ _ _ _) as [color| |]; intros Hno Hres Hu;
    try contradiction.
  eexists. split; [reflexivity|]. now apply Hres.
Qed.

(** A voxel read returns 0 or a stored value. *)
Lemma getVoxel_stored this x y z :
  volume.getVoxel this x y z = Fin 0
  \/ exists n, In n (m_data this) /\ volume.getVoxel this x y z = volume.of_u16 n.
Proof.
  unfold volume.getVoxel. cbv zeta.
  destruct (_ || _)%bool eqn:E; [now left | right].
  apply orb_false_iff in E. destruct E as (E1 & E2).
  apply Z.leb_gt in E1. apply Z.ltb_ge in E2.
  eexists. split; [|reflexivity]. apply nth_In. lia.
Qed.

Lemma getVoxelNN_stored this coord :
  volume.getVoxelNN this coord = Fin 0
  \/ exists n, In n (m_data this) /\ volume.getVoxelNN this coord = volume.of_u16 n.
Proof.
  unfold volume.getVoxelNN. destruct (_ || _)%bool; [now left | apply getVoxel_stored].
Qed.

(** The samples of the example are 0 or 100, and the table of two entries
    over the range [0, 200) has an entry for both. *)
Lemma renderer_unshaded_lookups a : lookups_defined a renderer_unshaded.
Proof.
  intros p. unfold render.sample, volume.getVoxelInterpolate.
  change (interpolationMode (m_pVolume renderer_unshaded)) with NearestNeighbour.
  cbv iota.
  destruct (getVoxelNN_stored (m_pVolume renderer_unshaded) p) as [-> | (n & Hn & ->)].
  - vm_compute. discriminate.
  - simpl in Hn. repeat (destruct Hn as [<- | Hn]; [vm_compute; discriminate|]).
    destruct Hn.
Qed.



(** *** Volume shading: the Phong factor can be negative *)

(** The rational stand-in satisfies the laws. *)
Lemma libm_standin_lawful : lawful libm_standin.
Proof.
  unfold lawful, libm_standin; cbn [libm_acos libm_cos libm_sqrt]. repeat split.
  - intros [p| | |] [q| | |]; simpl; try easy. intros H. now rewrite H.
  - intros [p| | |] [q| | |]; simpl; try easy. intros H. rewrite H.
    destruct (Qeq_bool q 0); simpl; [reflexivity | now rewrite H].
  - auto.
  - assert (E : Qeq_bool (q + 2) 0 = false) by (apply Qeq_bool_false_iff; lra).
    rewrite E. simpl. ring.
Qed.

(** With the gradient (-1, 0, 0) of magnitude 1, the light at (-1, 0, 0)
    and the view vector (1, 0, 0), the light and view angles coincide and
    [cos theta = -1 / 1.0001]: the factor [ka + kd * cos theta + ks] is
    [0.3 - 0.7 / 1.0001], for every math library that satisfies the
    laws. *)
Lemma phong_factor_example libm :
  lawful libm ->
  veq (render.computePhongShading libm (mkvec3 (Fin 1) (Fin 1) (Fin 1))
         (mkGradientVoxel (mkvec3 (Fin (-1)) (Fin 0) (Fin 0)) (Fin 1))
         (mkvec3 (Fin (-1)) (Fin 0) (Fin 0)) (mkvec3 (Fin 1) (Fin 0) (Fin 0)))
      (vec3_all (Fin (0.3 - 0.7 * (10000 # 10001)))).
Proof.
  intros (Pacos & Pcos & Psqrt & Hinv & Hcos0 & Hsqrt1).
  assert (IA : Proper (feq ==> feq) (libm_acos libm)) by exact Pacos.
  assert (IC : Proper (feq ==> feq) (libm_cos libm)) by exact Pcos.
  assert (IS : Proper (feq ==> feq) (libm_sqrt libm)) by exact Psqrt.
  unfold render.computePhongShading, render.length3. cbv zeta.
  cbn [dir magnitude].
  set (L := mkvec3 (Fin (-1)) (Fin 0) (Fin 0)).
  set (V := mkvec3 (Fin 1) (Fin 0) (Fin 0)).
  assert (sL : libm_sqrt libm (dot L L) =f= Fin 1).
  { assert (E : dot L L =f= Fin 1) by reflexivity. rewrite E. exact Hsqrt1. }
  assert (sV : libm_sqrt libm (dot V V) =f= Fin 1).
  { assert (E : dot V V =f= Fin 1) by reflexivity. rewrite E. exact Hsqrt1. }
  assert (argT : dot L (vneg L) / (Fin 1 * libm_sqrt libm (dot L L) + Fin 0.0001)
                 =f= Fin (- (10000 # 10001))).
  { rewrite sL. reflexivity. }
  assert (argP : dot L V / (Fin 1 * libm_sqrt libm (dot V V) + Fin 0.0001)
                 =f= Fin (- (10000 # 10001))).
  { rewrite sV. reflexivity. }
  rewrite argT, argP.
  destruct (Hinv (- (10000 # 10001))%Q) as [Fth Hth]; [lra|].
  destruct (finite_inv _ Fth) as (t & Et).
  assert (Ephi : libm_acos libm (Fin (- (10000 # 10001)))
                 - libm_acos libm (Fin (- (10000 # 10001))) =f= Fin 0).
  { rewrite Et. simpl. ring. }
  rewrite Ephi, Hcos0, Hth.
  assert (Epow : fpow (Fin 1) 100 =f= Fin 1) by (vm_compute; reflexivity).
  rewrite Epow.
  unfold veq, vscale, vec3_all. cbn [vx vy vz]. autorewrite with finarith.
  repeat split; cbn [feq]; ring.
Qed.

(** The ray of one sample through the shaded example: one pass of the
    loop blends the shaded white of the table over black. *)
Lemma backToFrontComposite_shaded_example libm :
  render.backToFrontComposite a_example libm renderer_shaded 2 ray_one_sample (Fin 1)
  = Ret (vec4_of
           (render.blend (Fin 1)
              (render.computePhongShading libm (mkvec3 (Fin 1) (Fin 1) (Fin 1))
                 (mkGradientVoxel (mkvec3 (Fin (-1)) (Fin 0) (Fin 0)) (Fin 1))
                 (mkvec3 (Fin (-1)) (Fin 0) (Fin 0)) (mkvec3 (Fin 1) (Fin 0) (Fin 0)))
              (vec3_all (Fin 0)))
           (Fin 1)).
Proof. reflexivity. Qed.


End CompositeFacts.

(** ** The pixel loops: sequential and tiled *)

Module RenderFacts.

Import Examples RenderSpec.
Local Open Scope Z_scope.

Lemma in_int_range z lo hi : In z (render.int_range lo hi) <-> lo <= z < hi.
Proof.
  unfold render.int_range. rewrite in_map_iff. split.
  - intros (k & <- & Hk). apply in_seq in Hk. lia.
  - intros H. exists (Z.to_nat (z - lo)). split; [lia|]. apply in_seq. lia.
Qed.

Lemma NoDup_int_range lo hi : NoDup (render.int_range lo hi).
Proof.
  unfold render.int_range. apply Injective_map_NoDup.
  - intros j k H. lia.
  - apply seq_NoDup.
Qed.

(** Membership and absence of repetitions in the two nestings of the pixel
    loops. *)
Lemma in_grid_x_outer xs ys (p : Z * Z) :
  In p (flat_map (fun x => map (fun y => (x, y)) ys) xs) <-> In (fst p) xs /\ In (snd p) ys.
Proof.
  rewrite in_flat_map. split.
  - intros (x & Hx & Hp). apply in_map_iff in Hp. destruct Hp as (y & <- & Hy). now simpl.
  - intros [Hx Hy]. exists (fst p). split; [exact Hx|].
    apply in_map_iff. exists (snd p). split; [now destruct p | exact Hy].
Qed.

Lemma in_grid_y_outer xs ys (p : Z * Z) :
  In p (flat_map (fun y => map (fun x => (x, y)) xs) ys) <-> In (fst p) xs /\ In (snd p) ys.
Proof.
  rewrite in_flat_map. split.
  - intros (y & Hy & Hp). apply in_map_iff in Hp. destruct Hp as (x & <- & Hx). now simpl.
  - intros [Hx Hy]. exists (snd p). split; [exact Hy|].
    apply in_map_iff. exists (fst p). split; [now destruct p | exact Hx].
Qed.

Lemma NoDup_grid_x_outer (xs ys : list Z) :
  NoDup xs -> NoDup ys -> NoDup (flat_map (fun x => map (fun y => (x, y)) ys) xs).
Proof.
  intros Hxs Hys. induction Hxs as [|x xs Hx Hxs IH]; simpl; [constructor|].
  apply NoDup_app; [| exact IH |].
  - apply Injective_map_NoDup; [|exact Hys]. intros u v E. now inversion E.
  - intros p Hp Hq. apply in_map_iff in Hp. destruct Hp as (y & <- & _).
    apply in_grid_x_outer in Hq. now destruct Hq as [Hq _].
Qed.

Lemma NoDup_grid_y_outer (xs ys : list Z) :
  NoDup xs -> NoDup ys -> NoDup (flat_map (fun y => map (fun x => (x, y)) xs) ys).
Proof.
  intros Hxs Hys. induction Hys as [|y ys Hy Hys IH]; simpl; [constructor|].
  apply NoDup_app; [| exact IH |].
  - apply Injective_map_NoDup; [|exact Hxs]. intros u v E. now inversion E.
  - intros p Hp Hq. apply in_map_iff in Hp. destruct Hp as (x & <- & _).
    apply in_grid_y_outer in Hq. now destruct Hq as [_ Hq].
Qed.

Lemma vector_set_comm (A : Type) (v : list A) i j (a b : A) :
  i <> j ->
  render.vector_set (render.vector_set v i a) j b
  = render.vector_set (render.vector_set v j b) i a.
Proof.
  revert i j. induction v as [|h t IH]; intros [|i] [|j] Hij; simpl; try reflexivity.
  - congruence.
  - f_equal. apply IH. congruence.
Qed.

Section Schedule.

Variable this : Renderer.
Variable traceRay : RenderMode -> Ray -> vec4.

Hypothesis size_fits :
  i2x (render.resolution this) * i2y (render.resolution this) <= INT_MAX.

(** On the screen the index of [fillColor] is [resX * y + x]: no
    wrap-around, and one slot per pixel. *)
Lemma fillColor_index (p : Z * Z) :
  on_screen this p ->
  to_size_t (int_add (int_mul (i2x (render.resolution this)) (snd p)) (fst p))
  = i2x (render.resolution this) * snd p + fst p
  /\ 0 <= i2x (render.resolution this) * snd p + fst p
       < i2x (render.resolution this) * i2y (render.resolution this).
Proof.
  intros [Hx Hy].
  set (resX := i2x (render.resolution this)) in *.
  set (resY := i2y (render.resolution this)) in *.
  assert (INT_MAX = 2147483647) by reflexivity.
  assert (INT_MIN = -2147483648) by reflexivity.
  assert (B : 0 <= resX * snd p + fst p < resX * resY) by nia.
  assert (B' : 0 <= resX * snd p <= resX * resY) by nia.
  rewrite int_mul_id by (unfold in_int; lia).
  rewrite int_add_id by (unfold in_int; lia).
  rewrite to_size_t_id by lia. split; [reflexivity | exact B].
Qed.

(** The bodies of two different pixels commute: they write different
    slots, and neither reads the frame buffer. *)
Lemma renderPixel_comm fb p q :
  on_screen this p -> on_screen this q -> p <> q ->
  render.renderPixel this traceRay (render.renderPixel this traceRay fb p) q
  = render.renderPixel this traceRay (render.renderPixel this traceRay fb q) p.
Proof.
  intros Hp Hq Hne. unfold render.renderPixel.
  destruct (render.pixelColor this traceRay (fst p) (snd p)) as [cp|];
    destruct (render.pixelColor this traceRay (fst q) (snd q)) as [cq|]; try reflexivity.
  unfold render.fillColor.
  destruct (fillColor_index p Hp) as [-> Bp].
  destruct (fillColor_index q Hq) as [-> Bq].
  apply vector_set_comm. intros E.
  apply Z2Nat.inj in E; try lia.
  apply Hne. destruct p as [xp yp], q as [xq yq], Hp as [Hxp Hyp], Hq as [Hxq Hyq].
  simpl in *. set (resX := i2x (render.resolution this)) in *.
  assert (yp = yq) by nia. subst. f_equal. lia.
Qed.

(** Running the pixel bodies in any order gives the same frame buffer. *)
Lemma fold_renderPixel_perm l l' :
  Permutation l l' -> NoDup l -> Forall (on_screen this) l ->
  forall fb, fold_left (render.renderPixel this traceRay) l fb
             = fold_left (render.renderPixel this traceRay) l' fb.
Proof.
  induction 1 as [| x l l' Hperm IH | x y l | l l' l'' H1 IH1 H2 IH2];
    intros Hnd Hall fb.
  - reflexivity.
  - simpl. apply IH; [now inversion Hnd | now inversion Hall].
  - simpl. f_equal.
    inversion Hnd as [|? ? Hy Hnd']; subst. inversion Hall as [|? ? Oy Hall']; subst.
    inversion Hall' as [|? ? Ox _]; subst.
    apply renderPixel_comm; auto. intros ->. apply Hy. now left.
  - rewrite IH1 by assumption. apply IH2.
    + eapply Permutation_NoDup; eassumption.
    + eapply Permutation_Forall; eassumption.
Qed.

Lemma sequential_pixels_on_screen p :
  In p (render.sequential_pixels this) <-> on_screen this p.
Proof.
  unfold render.sequential_pixels, on_screen. rewrite in_grid_x_outer, !in_int_range.
  reflexivity.
Qed.

Lemma NoDup_sequential_pixels : NoDup (render.sequential_pixels this).
Proof. apply NoDup_grid_x_outer; apply NoDup_int_range. Qed.

Lemma tile_pixels_in_range r p : In p (render.tile_pixels r) <-> in_range r p.
Proof.
  unfold render.tile_pixels, in_range. rewrite in_grid_y_outer, !in_int_range.
  reflexivity.
Qed.

(** The tiles of a tiling cover the range, each pixel once. *)
Lemma tiling_covers r tiles :
  render.tiling r tiles ->
  NoDup (flat_map render.tile_pixels tiles)
  /\ (forall p, In p (flat_map render.tile_pixels tiles) <-> in_range r p).
Proof.
  induction 1 as [r | r m l1 l2 Hm _ [N1 I1] _ [N2 I2] | r m l1 l2 Hm _ [N1 I1] _ [N2 I2]].
  - simpl. rewrite app_nil_r. split.
    + apply NoDup_grid_y_outer; apply NoDup_int_range.
    + intros p. apply tile_pixels_in_range.
  - rewrite flat_map_app. split.
    + apply NoDup_app; auto. intros p H1 H2.
      apply I1 in H1. apply I2 in H2. unfold in_range in *; simpl in *. lia.
    + intros p. rewrite in_app_iff, I1, I2. unfold in_range; simpl. lia.
  - rewrite flat_map_app. split.
    + apply NoDup_app; auto. intros p H1 H2.
      apply I1 in H1. apply I2 in H2. unfold in_range in *; simpl in *. lia.
    + intros p. rewrite in_app_iff, I1, I2. unfold in_range; simpl. lia.
Qed.

(** Every schedule of the parallel loop is a permutation of the pixels of
    the sequential loop. *)
Lemma parallel_schedule_perm sched :
  render.parallel_schedule this sched ->
  Permutation (render.sequential_pixels this) sched.
Proof.
  unfold render.parallel_schedule.
  destruct (render.range_empty (render.screenRange this)) eqn:E.
  - intros ->. unfold render.range_empty, render.screenRange in E. simpl in E.
    assert (Hnil : forall p, ~ In p (render.sequential_pixels this)).
    { intros p Hp. apply sequential_pixels_on_screen in Hp. destruct Hp as [Hx Hy].
      destruct (Z.ltb_spec 0 (i2y (render.resolution this))),
               (Z.ltb_spec 0 (i2x (render.resolution this)));
        simpl in E; try discriminate; lia. }
    destruct (render.sequential_pixels this) as [|p l]; [constructor|].
    exfalso. apply (Hnil p). now left.
  - intros (tiles & Ht & Hperm).
    destruct (tiling_covers _ _ Ht) as [Hnd Hin].
    apply Permutation_trans with (flat_map render.tile_pixels tiles);
      [|now apply Permutation_sym].
    apply NoDup_Permutation; [apply NoDup_sequential_pixels | exact Hnd |].
    intros p. rewrite sequential_pixels_on_screen, Hin.
    unfold in_range, on_screen, render.screenRange; simpl. lia.
Qed.

Lemma vector_set_length (A : Type) (v : list A) i (a : A) :
  length (render.vector_set v i a) = length v.
Proof.
  revert i. induction v as [|h t IH]; intros [|i]; simpl; auto.
Qed.

Lemma nth_vector_set_same (A : Type) (v : list A) i (a d : A) :
  (i < length v)%nat -> nth i (render.vector_set v i a) d = a.
Proof.
  revert i. induction v as [|h t IH]; intros [|i] H; simpl in *; try lia; auto.
  apply IH. lia.
Qed.

Lemma nth_vector_set_other (A : Type) (v : list A) i j (a d : A) :
  i <> j -> nth j (render.vector_set v i a) d = nth j v d.
Proof.
  revert i j. induction v as [|h t IH]; intros [|i] [|j] H; simpl; try reflexivity.
  - congruence.
  - apply IH. congruence.
Qed.

Lemma slot_injective p q :
  on_screen this p -> on_screen this q -> slot this p = slot this q -> p = q.
Proof.
  intros Hp Hq E. unfold slot in E.
  destruct (fillColor_index p Hp) as [_ Bp].
  destruct (fillColor_index q Hq) as [_ Bq].
  apply Z2Nat.inj in E; try lia.
  destruct p as [xp yp], q as [xq yq], Hp as [Hxp Hyp], Hq as [Hxq Hyq].
  simpl in *. set (resX := i2x (render.resolution this)) in *.
  assert (yp = yq) by nia. subst. f_equal. lia.
Qed.

Lemma renderPixel_length fb p :
  length (render.renderPixel this traceRay fb p) = length fb.
Proof.
  unfold render.renderPixel.
  destruct (render.pixelColor this traceRay (fst p) (snd p)); [|reflexivity].
  apply vector_set_length.
Qed.

(** The body of another pixel leaves the slot of [p] alone. *)
Lemma renderPixel_other fb p q :
  on_screen this p -> on_screen this q -> p <> q ->
  pixel_at this (render.renderPixel this traceRay fb q) p = pixel_at this fb p.
Proof.
  intros Hp Hq Hne. unfold render.renderPixel, pixel_at.
  destruct (render.pixelColor this traceRay (fst q) (snd q)); [|reflexivity].
  unfold render.fillColor. destruct (fillColor_index q Hq) as [-> _].
  apply nth_vector_set_other. intros E. apply Hne. symmetry. now apply slot_injective.
Qed.

Lemma fold_renderPixel_untouched l :
  forall fb p, on_screen this p -> Forall (on_screen this) l -> ~ In p l ->
    pixel_at this (fold_left (render.renderPixel this traceRay) l fb) p = pixel_at this fb p.
Proof.
  induction l as [|q l IH]; intros fb p Hp Hall Hnin; [reflexivity|].
  simpl. inversion Hall; subst.
  rewrite IH; auto.
  - apply renderPixel_other; auto. intros ->. apply Hnin. now left.
  - intros H. apply Hnin. now right.
Qed.

(** After the bodies of a list of distinct pixels, the slot of a pixel of
    the list holds the colour computed for this pixel, or what it held
    before when its ray misses. *)
Lemma fold_renderPixel_written l :
  forall fb p,
    NoDup l -> Forall (on_screen this) l -> In p l ->
    Z.of_nat (length fb)
    = i2x (render.resolution this) * i2y (render.resolution this) ->
    pixel_at this (fold_left (render.renderPixel this traceRay) l fb) p
    = match render.pixelColor this traceRay (fst p) (snd p) with
      | Some color => color
      | None => pixel_at this fb p
      end.
Proof.
  induction l as [|q l IH]; intros fb p Hnd Hall Hin Hlen; [contradiction|].
  simpl. inversion Hnd as [|? ? Hq Hnd']; subst. inversion Hall as [|? ? Oq Hall']; subst.
  destruct Hin as [-> | Hin].
  - rewrite fold_renderPixel_untouched; auto.
    unfold render.renderPixel, pixel_at.
    destruct (render.pixelColor this traceRay (fst p) (snd p)); [|reflexivity].
    unfold render.fillColor. destruct (fillColor_index p Oq) as [-> B].
    apply nth_vector_set_same. lia.
  - assert (Op : on_screen this p) by (rewrite Forall_forall in Hall'; auto).
    rewrite IH; auto.
    + rewrite renderPixel_other; auto. intros ->. contradiction.
    + now rewrite renderPixel_length.
Qed.

End Schedule.

(** C5.  The frame buffer of the tiled parallel loop, for every cut of the
    screen into tiles and every interleaving of the pixels of the tiles,
    equals the frame buffer of the sequential loop; and the slot of every
    pixel holds the colour computed from the coordinate of this pixel
    alone (black when its ray misses the volume). *)
Theorem C5_tiled_render_equals_sequential this traceRay sched fb :
  frame_buffer_sized this fb ->
  render.parallel_schedule this sched ->
  render.render_parallel this traceRay sched fb = render.render_sequential this traceRay fb
  /\ (forall p, on_screen this p ->
        pixel_at this (render.render_sequential this traceRay fb) p
        = match render.pixelColor this traceRay (fst p) (snd p) with
          | Some color => color
          | None => black
          end).
Proof.
  intros [Hsize Hlen] Hs. split.
  - unfold render.render_parallel, render.render_sequential. symmetry.
    apply fold_renderPixel_perm; auto.
    + now apply parallel_schedule_perm.
    + apply NoDup_sequential_pixels.
    + apply Forall_forall. intros p. apply sequential_pixels_on_screen.
  - intros p Hp. unfold render.render_sequential.
    assert (Hlen' : Z.of_nat (length (render.resetImage fb))
                    = i2x (render.resolution this) * i2y (render.resolution this)).
    { unfold render.resetImage. rewrite length_map, Hlen. destruct Hp. lia. }
    rewrite (fold_renderPixel_written this traceRay Hsize); auto.
    + destruct (render.pixelColor this traceRay (fst p) (snd p)); [reflexivity|].
      unfold pixel_at, render.resetImage.
      destruct (fillColor_index this Hsize p Hp) as [_ B].
      change black with ((fun _ : vec4 => black) black) at 1.
      rewrite map_nth. reflexivity.
    + apply NoDup_sequential_pixels.
    + apply Forall_forall. intros q. apply sequential_pixels_on_screen.
    + now apply sequential_pixels_on_screen.
Qed.

Lemma C5_tiled_render_equals_sequential_witness :
  render.render_parallel renderer_2x2 traceRay_example schedule_2x2
    [black; black; black; black]
  = render.render_sequential renderer_2x2 traceRay_example [black; black; black; black].
Proof.
  apply (C5_tiled_render_equals_sequential renderer_2x2 traceRay_example schedule_2x2
           [black; black; black; black]).
  - split; [vm_compute; discriminate | reflexivity].
  - exists tiles_2x2. split.
    + apply (render.tiling_rows (render.mkRange2d 0 2 0 2) 1
               [render.mkRange2d 0 1 0 2]
               [render.mkRange2d 1 2 0 1; render.mkRange2d 1 2 1 2]).
      * simpl. lia.
      * apply render.tiling_leaf.
      * apply (render.tiling_cols (render.mkRange2d 1 2 0 2) 1
                 [render.mkRange2d 1 2 0 1] [render.mkRange2d 1 2 1 2]).
        -- simpl. lia.
        -- apply render.tiling_leaf.
        -- apply render.tiling_leaf.
    + apply NoDup_Permutation.
      * repeat constructor; simpl; intuition congruence.
      * repeat constructor; simpl; intuition congruence.
      * intros p. simpl. intuition.
Defined.


End RenderFacts.
